(** * The GRPC client service of centrifugo: [lib/grpc/clientservice/service.go]

    A shallow embedding of [Service.Communicate] and of the [grpcTransport]
    it hands to the client engine, with the properties of the duplex-stream
    bridge stated over it.

    The Go program has two goroutines per stream: the one spawned by
    [go func() { for { ... } }()] (reading commands) and the caller's, which
    ranges over the [replies] channel and then runs the deferred calls.  They
    share the buffered channel, the transport's [closed] flag and the stream.
    The model interleaves the two goroutines in steps that hold at most one
    operation on the shared state each (a channel operation, a
    [stream.Send], or [grpcTransport.Close] under [t.mu]): an iteration of
    the reading loop up to its [c.Close]; that [c.Close]; the receive of the
    [range]; the [stream.Send] of the reply received; the deferred
    [c.Close]; the return. *)

From Stdlib Require Import List String Bool Arith PeanoNat Lia.
Import ListNotations.

Set Implicit Arguments.

(** ** Go values *)

(** A Go [error] value is its message; [nil] is [None] of [option error]. *)
Definition error := string.

(** [io.EOF] *)
Definition io_EOF : error := "EOF"%string.

(** Code that may panic instead of returning. *)
Inductive outcome (A : Type) : Type :=
| Ret (a : A)
| Panic (msg : string).
Arguments Ret {A} a.
Arguments Panic {A} msg.

Definition bind {A B : Type} (c : outcome A) (k : A -> outcome B) : outcome B :=
  match c with
  | Ret a => k a
  | Panic msg => Panic msg
  end.

Notation "x <- c ;; k" := (bind c (fun x => k))
  (at level 61, c at next level, right associativity).

(** ** Buffered channels

    [make(chan T, n)], the non-blocking send of
    [select { case c <- x: default: }], the receive of [for x := range c]
    and [close(c)], as the Go language defines them: a send on a closed
    channel and a second close panic; a receive takes the oldest buffered
    value, ends the range when the channel is closed and drained, and blocks
    when it is open and empty. *)
Module Chan.
Section Chan.
Context {T : Type}.

Record chan : Type := mk { cap : nat; buf : list T; closed : bool }.

Definition make (n : nat) : chan := mk n [] false.

Inductive send_result : Type :=
| Sent (c : chan)
| Default
| SendPanic.

Definition select_send (c : chan) (x : T) : send_result :=
  if closed c then SendPanic
  else if List.length (buf c) <? cap c
       then Sent (mk (cap c) (buf c ++ [x]) (closed c))
       else Default.

Inductive recv_result : Type :=
| Received (x : T) (c : chan)
| Drained
| Blocked.

Definition recv (c : chan) : recv_result :=
  match buf c with
  | x :: rest => Received x (mk (cap c) rest (closed c))
  | [] => if closed c then Drained else Blocked
  end.

Definition close (c : chan) : outcome chan :=
  if closed c then Panic "close of closed channel"
  else Ret (mk (cap c) (buf c) true).

End Chan.
Arguments chan T : clear implicits.
End Chan.

(** ** Protocol values *)

(** Modelled from the spec: [proto.Disconnect] (package [lib/proto] is not
    among the sources): "a value carrying a machine-readable reason code and
    a boolean reconnect-allowed hint"; the field names are those of the
    composite literal in [Communicate]. *)
Record Disconnect : Type := { Reason : string; Reconnect : bool }.

(** A [*proto.Disconnect]; [nil] is [None]. *)
Definition DisconnectPtr : Type := option Disconnect.

(** [proto.Encoding]; the transport uses [proto.EncodingProtobuf]. *)
Inductive Encoding : Type := EncodingJSON | EncodingProtobuf.

(** [metadata.MD] as the key/value pairs given to [metadata.Pairs]. *)
Definition MD : Type := list (string * string).

Definition metadata_Pairs (k v : string) : MD := [(k, v)].

Definition replyBufferSize : nat := 64.

(** ** Collaborators

    What the service takes from packages that are not in this file:
    [json.Marshal] at a [*proto.Disconnect] (its encoding, or an error) and
    the value [proto.DisconnectNormal] of package [lib/proto]. *)
Class Collaborators : Type := {
  json_Marshal : DisconnectPtr -> string + error;
  DisconnectNormal : DisconnectPtr
}.

Section Service.
Context {Command Reply : Type} {env : Collaborators}.

(** Modelled from the spec: [proto.PreparedReply] and
    [proto.NewPreparedReply] (package [lib/proto]): the "framing step" that
    pairs a reply with the wire encoding of the transport; [Send] reads the
    [Reply] field back. *)
Record PreparedReply : Type := { pr_Reply : Reply; pr_Enc : Encoding }.

Definition NewPreparedReply (rep : Reply) (enc : Encoding) : PreparedReply :=
  {| pr_Reply := rep; pr_Enc := enc |}.

(** The server side of the stream ([proto.Centrifugo_CommunicateServer]) as
    its history: every [stream.Send] call with the result the network gave
    it, and the trailer metadata set so far ([SetTrailer] merges). *)
Record Stream : Type := mkStream {
  writes : list (Reply * option error);
  trailer : MD
}.

Definition fresh_stream : Stream := mkStream [] [].

(** [stream.Send(reply)], where [w] is the result the network gives. *)
Definition stream_Send (w : option error) (st : Stream) (reply : Reply)
  : Stream * option error :=
  (mkStream (writes st ++ [(reply, w)]) (trailer st), w).

Definition stream_SetTrailer (st : Stream) (md : MD) : Stream :=
  mkStream (writes st) (trailer st ++ md).

(** The replies the stream has written: the [Send] calls that returned nil. *)
Definition successes (ws : list (Reply * option error)) : list Reply :=
  map fst (filter (fun p => match snd p with None => true | Some _ => false end)
                  ws).

Definition written (st : Stream) : list Reply := successes (writes st).

(** ** [grpcTransport]

    The struct's [mu] is the atomicity of [grpcTransport_Close]; [stream] is
    the one stream of the session, which [Communicate] writes through the
    same reference. *)
Record grpcTransport : Type := mkTransport {
  closed : bool;
  stream : Stream;
  replies : Chan.chan Reply
}.

Definition newGRPCTransport (stream : Stream) (replies : Chan.chan Reply)
  : grpcTransport :=
  mkTransport false stream replies.

Definition grpcTransport_Name (t : grpcTransport) : string := "grpc"%string.

Definition grpcTransport_Encoding (t : grpcTransport) : Encoding :=
  EncodingProtobuf.

Definition overflow_error : error :=
  "error sending to transport: buffer channel is full"%string.

Definition grpcTransport_Send (t : grpcTransport) (reply : PreparedReply)
  : outcome (grpcTransport * option error) :=
  match Chan.select_send (replies t) (pr_Reply reply) with
  | Chan.Sent c => Ret (mkTransport (closed t) (stream t) c, None)
  | Chan.Default => Ret (t, Some overflow_error)
  | Chan.SendPanic => Panic "send on closed channel"
  end.

Definition grpcTransport_Close (t : grpcTransport) (disconnect : DisconnectPtr)
  : outcome (grpcTransport * option error) :=
  if closed t then Ret (t, None)
  else
    let t := mkTransport true (stream t) (replies t) in
    match json_Marshal disconnect with
    | inr err => Ret (t, Some err)
    | inl disconnectJSON =>
        let st := stream_SetTrailer (stream t)
                    (metadata_Pairs "disconnect" disconnectJSON) in
        c <- Chan.close (replies t) ;;
        Ret (mkTransport (closed t) st c, None)
    end.

(** [n] calls of [Close], one after the other as the mutex orders them: the
    transport after the last one and the result of each call, in order. *)
Fixpoint Close_all (t : grpcTransport) (ds : list DisconnectPtr)
  : outcome (grpcTransport * list (option error)) :=
  match ds with
  | [] => Ret (t, [])
  | d :: ds =>
      r <- grpcTransport_Close t d ;;
      rs <- Close_all (fst r) ds ;;
      Ret (fst rs, snd r :: snd rs)
  end.

(** The calls [Send(r1)], [Send(r2)], ... one after the other: the transport
    after the last one and the result of each call, in order. *)
Fixpoint Send_all (t : grpcTransport) (rs : list PreparedReply)
  : outcome (grpcTransport * list (option error)) :=
  match rs with
  | [] => Ret (t, [])
  | r :: rs =>
      a <- grpcTransport_Send t r ;;
      b <- Send_all (fst a) rs ;;
      Ret (fst b, snd a :: snd b)
  end.

(** ** The session

    [inbound] is the goroutine started by [go func()]: in its loop, about to
    run [c.Close(disconnect); return], or gone.  [main] is the goroutine that
    called [Communicate]: at the receive of its [for ... range] loop; inside
    [stream.Send(reply)] with the reply it has received; out of the loop with
    the value to return and its deferred calls still to run; with the
    deferred [c.Close] done and the return still to come; or returned.
    An unrecovered panic ends the process: [panicked] holds its message. *)
Inductive goroutine : Type :=
| Running
| Closing (disconnect : DisconnectPtr)
| Exited.

Inductive main_state : Type :=
| Looping
| Writing (reply : Reply)
| Returning (err : option error)
| Leaving (err : option error)
| Returned (err : option error).

(** [close_calls] is the engine's record of the [c.Close] invocations, in
    order; [accepted] is a history variable: the replies for which
    [transport.Send] returned nil, in order. *)
Record session : Type := mkSession {
  transport : grpcTransport;
  close_calls : list DisconnectPtr;
  accepted : list Reply;
  inbound : goroutine;
  main : main_state;
  panicked : option string
}.

Definition set_transport (s : session) (t : grpcTransport) : session :=
  mkSession t (close_calls s) (accepted s) (inbound s) (main s) (panicked s).

Definition set_inbound (s : session) (g : goroutine) : session :=
  mkSession (transport s) (close_calls s) (accepted s) g (main s) (panicked s).

Definition set_main (s : session) (m : main_state) : session :=
  mkSession (transport s) (close_calls s) (accepted s) (inbound s) m (panicked s).

Definition set_panicked (s : session) (msg : string) : session :=
  mkSession (transport s) (close_calls s) (accepted s) (inbound s) (main s)
            (Some msg).

Definition accept (s : session) (rep : Reply) : session :=
  mkSession (transport s) (close_calls s) (accepted s ++ [rep]) (inbound s)
            (main s) (panicked s).

(** Modelled from the spec: [Close] of the session engine (package
    [lib/client] is not among the sources).  The engine was constructed with
    this transport; its [Close(disconnect)] "terminates the session", that is
    calls the transport's terminate operation with the disconnect it was
    given, and returns nothing. *)
Definition client_Close (s : session) (disconnect : DisconnectPtr) : session :=
  let s := mkSession (transport s) (close_calls s ++ [disconnect]) (accepted s)
                     (inbound s) (main s) (panicked s) in
  match grpcTransport_Close (transport s) disconnect with
  | Ret (t, _) => set_transport s t
  | Panic msg => set_panicked s msg
  end.

(** What [stream.Recv()] returns: a command, or a non-nil error. *)
Inductive Recv_result : Type :=
| Recv (cmd : Command)
| RecvError (err : error).

(** What [c.Handle(cmd)] returns: [(rep, disconnect)], either may be nil.
    The engine is a black box, so its answers are inputs of the model. *)
Definition Handle_result : Type := (option Reply * DisconnectPtr)%type.

Definition send_failed_disconnect : DisconnectPtr :=
  Some {| Reason := "error sending message"; Reconnect := true |}.

(** One iteration of the [for] loop of the spawned goroutine, up to the
    next iteration or to the [c.Close(d); return] that ends the loop, which
    [Closing d] leaves to [inbound_exit]; the log entries have no effect
    here. *)
Definition inbound_iter (r : Recv_result) (h : Handle_result) (s : session)
  : session :=
  match r with
  | RecvError err =>
      if String.eqb err io_EOF
      then set_inbound s (Closing DisconnectNormal)
      else set_inbound s (Closing DisconnectNormal)
  | Recv cmd =>
      let '(rep, disconnect) := h in
      match disconnect with
      | Some _ => set_inbound s (Closing disconnect)
      | None =>
          match rep with
          | Some rep =>
              match grpcTransport_Send (transport s)
                      (NewPreparedReply rep EncodingProtobuf) with
              | Ret (t, Some _) =>
                  set_inbound (set_transport s t)
                              (Closing send_failed_disconnect)
              | Ret (t, None) => accept (set_transport s t) rep
              | Panic msg => set_panicked s msg
              end
          | None => s
          end
      end
  end.

(** [c.Close(disconnect); return] of the spawned goroutine. *)
Definition inbound_exit (disconnect : DisconnectPtr) (s : session) : session :=
  set_inbound (client_Close s disconnect) Exited.

(** The receive of [for reply := range replies]: [None] when it blocks;
    with a reply, the loop is next inside [stream.Send(reply)]; on the
    closed, drained channel the loop is left and nil is to be returned. *)
Definition loop_receive (s : session) : option session :=
  let t := transport s in
  match Chan.recv (replies t) with
  | Chan.Received reply c =>
      Some (set_main (set_transport s (mkTransport (closed t) (stream t) c))
                     (Writing reply))
  | Chan.Drained => Some (set_main s (Returning None))
  | Chan.Blocked => None
  end.

(** [if err := stream.Send(reply); err != nil { return err }], where [w] is
    what the network answers: back to the receive, or out of the loop with
    the error to return. *)
Definition loop_write (w : option error) (reply : Reply) (s : session)
  : session :=
  let t := transport s in
  match stream_Send w (stream t) reply with
  | (st, Some err) =>
      set_main (set_transport s (mkTransport (closed t) st (replies t)))
               (Returning (Some err))
  | (st, None) =>
      set_main (set_transport s (mkTransport (closed t) st (replies t)))
               Looping
  end.

(** One whole iteration of the loop: the receive, then the write of the
    reply received, with no step of the other goroutine in between. *)
Definition outbound_iter (w : option error) (s : session) : option session :=
  match loop_receive s with
  | Some s1 =>
      match main s1 with
      | Writing reply => Some (loop_write w reply s1)
      | _ => Some s1
      end
  | None => None
  end.

(** The deferred [c.Close(proto.DisconnectNormal)], the last deferred call
    to run; and the return that follows it. *)
Definition deferred_call (err : option error) (s : session) : session :=
  set_main (client_Close s DisconnectNormal) (Leaving err).

Definition main_return (err : option error) (s : session) : session :=
  set_main s (Returned err).

(** The two, with no step of the other goroutine in between. *)
Definition deferred_Close (err : option error) (s : session) : session :=
  main_return err (deferred_call err s).

(** The state in which [Communicate] starts its two loops. *)
Definition Communicate_start : session :=
  let replies := Chan.make replyBufferSize in
  let transport := newGRPCTransport fresh_stream replies in
  mkSession transport [] [] Running Looping None.

(** A scheduling step: which goroutine moves, with what the outside answers.
    [Receive], [Write], [DeferredClose] and [Return] are the steps of the
    goroutine of [Communicate]; [Outbound] is [Receive] followed at once by
    [Write], and [Deferred] is [DeferredClose] followed at once by
    [Return]. *)
Inductive label : Type :=
| Inbound (r : Recv_result) (h : Handle_result)
| InboundExit
| Receive
| Write (w : option error)
| DeferredClose
| Return
| Outbound (w : option error)
| Deferred.

Definition step (l : label) (s : session) : option session :=
  match panicked s with
  | Some _ => None
  | None =>
      match l with
      | Inbound r h =>
          match inbound s with
          | Running => Some (inbound_iter r h s)
          | _ => None
          end
      | InboundExit =>
          match inbound s with
          | Closing disconnect => Some (inbound_exit disconnect s)
          | _ => None
          end
      | Receive =>
          match main s with
          | Looping => loop_receive s
          | _ => None
          end
      | Write w =>
          match main s with
          | Writing reply => Some (loop_write w reply s)
          | _ => None
          end
      | DeferredClose =>
          match main s with
          | Returning err => Some (deferred_call err s)
          | _ => None
          end
      | Return =>
          match main s with
          | Leaving err => Some (main_return err s)
          | _ => None
          end
      | Outbound w =>
          match main s with
          | Looping => outbound_iter w s
          | _ => None
          end
      | Deferred =>
          match main s with
          | Returning err => Some (deferred_Close err s)
          | _ => None
          end
      end
  end.

Fixpoint run (tr : list label) (s : session) : option session :=
  match tr with
  | [] => Some s
  | l :: tr =>
      match step l s with
      | Some s' => run tr s'
      | None => None
      end
  end.

(** The steps of the loop of [Communicate], and those of the spawned
    goroutine. *)
Definition of_main_loop (l : label) : bool :=
  match l with
  | Receive | Write _ | Outbound _ => true
  | _ => false
  end.

Definition of_inbound (l : label) : bool :=
  match l with
  | Inbound _ _ | InboundExit => true
  | _ => false
  end.

(** The loop of [Communicate] run to its end on a closed queue of [n]
    replies, every write succeeding: the write it is in, if any, then [n]
    iterations and the receive that finds the queue drained. *)
Definition finish_loop (m : main_state) (n : nat) : list label :=
  match m with
  | Writing _ => Write None :: repeat (Outbound None) (S n)
  | _ => repeat (Outbound None) (S n)
  end.

(** [Communicate] is in its loop. *)
Definition in_loop (m : main_state) : Prop :=
  m = Looping \/ exists r, m = Writing r.

(** [Communicate] has left its loop with [err] to return: the deferred
    calls are still to run, or the return is, or it has returned. *)
Definition left_loop (m : main_state) (err : option error) : Prop :=
  m = Returning err \/ m = Leaving err \/ m = Returned err.

(** The spawned goroutine reads each command of [crs] and the engine answers
    it with the reply paired with it, and no disconnect. *)
Definition answered (crs : list (Command * Reply)) : list label :=
  map (fun cr => Inbound (Recv (fst cr)) (Some (snd cr), None)) crs.

(** The value [Communicate] has returned, if it has. *)
Definition returned (s : session) : option (option error) :=
  match main s with
  | Returned err => Some err
  | _ => None
  end.

(** ** Invariants of a session

    Every state [Communicate] reaches satisfies [inv]. *)

Definition ok_writes (rs : list Reply) : list (Reply * option error) :=
  map (fun r => (r, None)) rs.

(** The channel keeps the capacity it was made with and never holds more. *)
Definition inv_chan (s : session) : Prop :=
  Chan.cap (replies (transport s)) = replyBufferSize /\
  List.length (Chan.buf (replies (transport s))) <= replyBufferSize.

(** The first [c.Close] decides the termination: its payload is the one in
    the trailer, and the channel is closed exactly when it could be encoded. *)
Definition inv_term (s : session) : Prop :=
  let t := transport s in
  match close_calls s with
  | [] =>
      closed t = false /\ Chan.closed (replies t) = false /\
      trailer (stream t) = []
  | d :: _ =>
      closed t = true /\
      match json_Marshal d with
      | inl j =>
          Chan.closed (replies t) = true /\
          trailer (stream t) = metadata_Pairs "disconnect" j
      | inr _ =>
          Chan.closed (replies t) = false /\ trailer (stream t) = []
      end
  end.

(** Each goroutine calls [c.Close] once, when it leaves. *)
Definition inv_calls (s : session) : Prop :=
  List.length (close_calls s) =
    (match inbound s with Exited => 1 | _ => 0 end) +
    (match main s with Leaving _ | Returned _ => 1 | _ => 0 end).

Definition history (s : session) (err : option error) : Prop :=
  let st := stream (transport s) in
  let bf := Chan.buf (replies (transport s)) in
  match err with
  | None =>
      writes st = ok_writes (written st) /\ accepted s = written st /\
      bf = [] /\ Chan.closed (replies (transport s)) = true /\
      inbound s = Exited
  | Some e =>
      exists r, writes st = ok_writes (written st) ++ [(r, Some e)] /\
                accepted s = written st ++ r :: bf
  end.

(** What was accepted is what was written, then the reply being written if
    there is one, then what is queued. *)
Definition inv_hist (s : session) : Prop :=
  let st := stream (transport s) in
  match main s with
  | Looping =>
      writes st = ok_writes (written st) /\
      accepted s = written st ++ Chan.buf (replies (transport s))
  | Writing r =>
      writes st = ok_writes (written st) /\
      accepted s = written st ++ r :: Chan.buf (replies (transport s))
  | Returning err => history s err
  | Leaving err => history s err
  | Returned err => history s err
  end.

(** The deferred [c.Close] has run: the return is still to come, or done. *)
Definition deferred_done (m : main_state) (err : option error) : Prop :=
  m = Leaving err \/ m = Returned err.

(** Only a goroutine that has made its [c.Close] closes the channel, and the
    only panic is a send after the deferred close that follows a failed
    write. *)
Definition inv_live (s : session) : Prop :=
  (Chan.closed (replies (transport s)) = true ->
   inbound s = Exited \/ exists err, deferred_done (main s) err) /\
  (forall msg, panicked s = Some msg ->
     inbound s = Running /\ exists e, deferred_done (main s) (Some e)).

Record inv (s : session) : Prop := {
  inv_chan_ok : inv_chan s;
  inv_term_ok : inv_term s;
  inv_calls_ok : inv_calls s;
  inv_hist_ok : inv_hist s;
  inv_live_ok : inv_live s
}.

(** ** A transport whose first [Close] could not encode its payload *)

(** The flag is set and the channel is still open: no [Close] will close it. *)
Definition wedged (s : session) : Prop :=
  closed (transport s) = true /\
  Chan.closed (replies (transport s)) = false.

(** [Communicate] has not left its loop through the closed, drained queue. *)
Definition not_drained (m : main_state) : Prop :=
  match m with
  | Returning None | Leaving None | Returned None => False
  | _ => True
  end.

End Service.

(** ** Sample collaborators and sessions

    Commands and replies are numbers here.  [sample_json] writes its
    quotation marks as apostrophes; [json.Marshal] is [marshal_ok], or
    [marshal_partial] where an encoding failure is wanted. *)

Definition sample_json (d : DisconnectPtr) : string :=
  match d with
  | None => "null"
  | Some {| Reason := r; Reconnect := b |} =>
      String.append "{'reason':'"
        (String.append r
           (if b then "','reconnect':true}" else "','reconnect':false}"))
  end%string.

(** An encoder that always succeeds, as [json.Marshal] does on a struct of a
    string and a bool. *)
Definition marshal_ok (d : DisconnectPtr) : string + error :=
  inl (sample_json d).

(** An encoder that fails on some payloads: every disconnect whose reason
    is [bad]. *)
Definition marshal_partial (d : DisconnectPtr) : string + error :=
  match d with
  | Some {| Reason := "bad"%string |} => inr "json: unsupported value"%string
  | _ => inl (sample_json d)
  end.

Definition sample_normal : DisconnectPtr :=
  Some {| Reason := ""; Reconnect := true |}.

Definition ok_env : Collaborators :=
  {| json_Marshal := marshal_ok; DisconnectNormal := sample_normal |}.

Definition partial_env : Collaborators :=
  {| json_Marshal := marshal_partial; DisconnectNormal := sample_normal |}.

Definition fresh_transport : @grpcTransport nat :=
  newGRPCTransport fresh_stream (Chan.make replyBufferSize).

Definition bad_disconnect : DisconnectPtr :=
  Some {| Reason := "bad"; Reconnect := false |}.

Definition shutdown_disconnect : DisconnectPtr :=
  Some {| Reason := "shutdown"; Reconnect := false |}.

Definition broken_pipe : error := "broken pipe"%string.

(** Two commands answered, then end of stream. *)
Definition two_replies_then_EOF : list (@label nat nat) :=
  [Inbound (Recv 1) (Some 10, None);
   Inbound (Recv 2) (Some 20, None);
   Inbound (RecvError io_EOF) (None, None);
   InboundExit].

Definition session_after (tr : list (@label nat nat)) : @session nat :=
  match run (env := ok_env) tr Communicate_start with
  | Some s => s
  | None => Communicate_start
  end.

(** The queue closed by the reading loop, two replies still in it. *)
Definition closed_with_two : @session nat :=
  Eval vm_compute in session_after two_replies_then_EOF.

(** The reading loop has queued 64 replies and nothing was written yet. *)
Definition queue_full : @session nat :=
  Eval vm_compute in
    session_after (repeat (Inbound (Recv 0) (Some 0, None)) replyBufferSize).

(** The first write failed; the deferred close is pending. *)
Definition write_failed : @session nat :=
  Eval vm_compute in
    session_after [Inbound (Recv 1) (Some 10, None); Outbound (Some broken_pipe)].

(** [Communicate] has returned the error of the first write; the spawned
    goroutine is still in its loop. *)
Definition returned_write_error : @session nat :=
  Eval vm_compute in
    session_after
      [Inbound (Recv 1) (Some 10, None); Outbound (Some broken_pipe); Deferred].

(** The reading loop has met end of stream with one reply queued and is
    about to call [c.Close]. *)
Definition reading_ended : @session nat :=
  Eval vm_compute in
    session_after
      [Inbound (Recv 1) (Some 10, None);
       Inbound (RecvError io_EOF) (None, None)].

(** The loop of [Communicate] has taken the first reply from the queue and
    has not written it yet; the reading loop has filled the queue again. *)
Definition reply_in_flight : @session nat :=
  Eval vm_compute in
    session_after
      (Inbound (Recv 0) (Some 0, None) :: Receive ::
       repeat (Inbound (Recv 0) (Some 0, None)) replyBufferSize).

(** The first write failed and the deferred [c.Close] has closed the queue;
    [Communicate] has not returned yet. *)
Definition closed_before_return : @session nat :=
  Eval vm_compute in
    session_after
      [Inbound (Recv 1) (Some 10, None); Receive; Write (Some broken_pipe);
       DeferredClose].

(** The spawned goroutine has then sent its next reply. *)
Definition panicked_before_return : @session nat :=
  Eval vm_compute in
    session_after
      [Inbound (Recv 1) (Some 10, None); Receive; Write (Some broken_pipe);
       DeferredClose; Inbound (Recv 2) (Some 20, None)].

(** Sixty-six replies to send, numbered from 0. *)
Definition sixty_six_replies : list (@PreparedReply nat) :=
  map (fun n => NewPreparedReply n EncodingProtobuf) (seq 0 66).

Unset Implicit Arguments.

(** * Properties *)

Section Properties.
Context {Command Reply : Type} {env : Collaborators}.

(** The types and the start state at the commands and replies at hand. *)
Local Abbreviation grpcTransport := (@grpcTransport Reply).
Local Abbreviation PreparedReply := (@PreparedReply Reply).
Local Abbreviation session := (@session Reply).
Local Abbreviation label := (@label Command Reply).
Local Abbreviation RecvError := (@RecvError Command).
Local Abbreviation InboundExit := (@InboundExit Command Reply).
Local Abbreviation Receive := (@Receive Command Reply).
Local Abbreviation Write := (@Write Command Reply).
Local Abbreviation DeferredClose := (@DeferredClose Command Reply).
Local Abbreviation Return := (@Return Command Reply).
Local Abbreviation Outbound := (@Outbound Command Reply).
Local Abbreviation Deferred := (@Deferred Command Reply).
Local Abbreviation Handle_result := (@Handle_result Reply).
Local Abbreviation finish_loop := (@finish_loop Command Reply).
Local Abbreviation Communicate_start := (@Communicate_start Reply).

(** ** The transport on its own *)

Lemma select_send_open (c : Chan.chan Reply) (x : Reply) :
  Chan.closed c = false ->
  Chan.select_send c x =
    if List.length (Chan.buf c) <? Chan.cap c
    then Chan.Sent (Chan.mk (Chan.cap c) (Chan.buf c ++ [x]) false)
    else Chan.Default.
Proof.
  intros Hopen. unfold Chan.select_send. now rewrite !Hopen.
Qed.

Lemma select_send_closed (c : Chan.chan Reply) (x : Reply) :
  Chan.closed c = true -> Chan.select_send c x = Chan.SendPanic.
Proof.
  intros Hc. unfold Chan.select_send. now rewrite Hc.
Qed.

Lemma Close_closed (t : grpcTransport) (d : DisconnectPtr) :
  closed t = true -> grpcTransport_Close t d = Ret (t, None).
Proof.
  intros Hc. unfold grpcTransport_Close. now rewrite Hc.
Qed.

Lemma Close_first_ok (t : grpcTransport) (d : DisconnectPtr) (j : string) :
  closed t = false ->
  Chan.closed (replies t) = false ->
  json_Marshal d = inl j ->
  grpcTransport_Close t d =
    Ret (mkTransport true
           (stream_SetTrailer (stream t) (metadata_Pairs "disconnect" j))
           (Chan.mk (Chan.cap (replies t)) (Chan.buf (replies t)) true),
         None).
Proof.
  intros Hc Hopen Hj. unfold grpcTransport_Close, Chan.close.
  rewrite Hc, Hj. cbn. now rewrite Hopen.
Qed.

Lemma Close_first_err (t : grpcTransport) (d : DisconnectPtr) (e : error) :
  closed t = false ->
  json_Marshal d = inr e ->
  grpcTransport_Close t d =
    Ret (mkTransport true (stream t) (replies t), Some e).
Proof.
  intros Hc He. unfold grpcTransport_Close. now rewrite Hc, He.
Qed.

Lemma Close_all_closed (t : grpcTransport) (ds : list DisconnectPtr) :
  closed t = true ->
  Close_all t ds = Ret (t, repeat None (List.length ds)).
Proof.
  intros Hc. induction ds as [|d ds IH]; cbn.
  - reflexivity.
  - rewrite (Close_closed t d Hc). cbn. rewrite IH. reflexivity.
Qed.

(** ** The invariants hold *)

Lemma successes_snoc_ok (ws : list (Reply * option error)) (x : Reply) :
  successes (ws ++ [(x, None)]) = successes ws ++ [x].
Proof.
  unfold successes. rewrite filter_app, map_app. reflexivity.
Qed.

Lemma successes_snoc_err (ws : list (Reply * option error)) (x : Reply)
  (e : error) :
  successes (ws ++ [(x, Some e)]) = successes ws.
Proof.
  unfold successes. rewrite filter_app, map_app. cbn. apply app_nil_r.
Qed.

Lemma successes_ok_writes (rs : list Reply) : successes (ok_writes rs) = rs.
Proof.
  induction rs as [|r rs IH]; cbn; [reflexivity | now f_equal].
Qed.

Lemma ok_writes_snoc (rs : list Reply) (x : Reply) :
  ok_writes (rs ++ [x]) = ok_writes rs ++ [(x, None)].
Proof. unfold ok_writes. now rewrite map_app. Qed.

Lemma inv_start : inv Communicate_start.
Proof.
  split; cbv; repeat split; try lia; try discriminate; auto.
Qed.

#[local] Arguments Nat.ltb : simpl never.
#[local] Arguments replyBufferSize : simpl never.
#[local] Arguments successes : simpl never.
#[local] Arguments ok_writes : simpl never.

Ltac open_session s :=
  destruct s as [[cl [ws tr] [cp bf cc]] calls acc ib mn pn].

Ltac unfold_step :=
  unfold step, inbound_iter, inbound_exit, outbound_iter, loop_receive,
    loop_write, deferred_Close, deferred_call, main_return,
    client_Close, grpcTransport_Close, grpcTransport_Send, Chan.select_send,
    Chan.recv, Chan.close, bind, set_transport, set_inbound, set_main,
    set_panicked, accept, stream_Send, stream_SetTrailer, NewPreparedReply,
    send_failed_disconnect in *.

Ltac split_on x H :=
  lazymatch x with
  | context [match ?y with _ => _ end] => split_on y H
  | _ => let E := fresh "E" in
         destruct x eqn:E; cbn in H; try discriminate H
  end.

Ltac split_step H :=
  repeat match type of H with
         | context [match ?x with _ => _ end] => split_on x H
         end;
  try (injection H as H; subst).

Ltac use_eqs :=
  repeat match goal with
         | E : ?x = _ |- context [match ?x with _ => _ end] => rewrite E
         end.

Lemma step_inv_chan (l : label) (s s' : session) :
  inv_chan s -> step l s = Some s' -> inv_chan s'.
Proof.
  intros [Hcap Hlen] H. open_session s. unfold_step. cbn in *.
  split_step H; unfold inv_chan; cbn.
  all: rewrite ?Nat.ltb_lt, ?Nat.ltb_ge in *.
  all: split; [reflexivity | cbn in *; rewrite ?length_app in *; cbn in *; lia].
Qed.

Lemma step_inv_term (l : label) (s s' : session) :
  inv_term s -> step l s = Some s' -> inv_term s'.
Proof.
  intros Ht H. open_session s. unfold inv_term in *. cbn in Ht.
  destruct calls as [|d0 calls]; cbn in Ht.
  - destruct Ht as (-> & -> & ->). unfold_step. cbn in H.
    split_step H; cbn; use_eqs; auto.
  - destruct Ht as (-> & Ht). unfold_step. cbn in H.
    split_step H; cbn; use_eqs; auto.
Qed.

Lemma step_inv_calls (l : label) (s s' : session) :
  inv_calls s -> step l s = Some s' -> inv_calls s'.
Proof.
  intros Hn H. open_session s. unfold inv_calls in *. cbn in Hn.
  unfold_step. cbn in H.
  split_step H; cbn; rewrite ?length_app; cbn; try lia.
Qed.

Ltac break_hyps :=
  repeat match goal with
         | H : _ /\ _ |- _ => destruct H
         | H : exists _, _ |- _ => destruct H
         end.

Lemma step_inv_hist (l : label) (s s' : session) :
  inv_term s -> inv_hist s -> inv_live s -> step l s = Some s' -> inv_hist s'.
Proof.
  intros Ht Hh [Hl _] H. open_session s.
  unfold inv_hist, history, inv_live, inv_term, written, deferred_done in *.
  cbn in Ht, Hh, Hl.
  unfold_step. cbn in H.
  destruct mn as [|r1|[e|]|[e|]|[e|]];
  split_step H; cbn; clear Ht; break_hyps; try discriminate; subst.
  all: rewrite ?successes_snoc_ok, ?successes_snoc_err, ?ok_writes_snoc.
  all: try (repeat split; rewrite <- ?app_assoc; auto; fail).
  all: try (eexists; split; [eassumption | rewrite <- ?app_assoc; reflexivity]).
  all: try (destruct (Hl eq_refl) as [-> | [? [Hx | Hx]]];
            try discriminate Hx; rewrite app_nil_r; auto; fail).
  all: try (eexists; split; [now f_equal | reflexivity]).
  all: split; [now f_equal | now rewrite <- app_assoc].
Qed.

Lemma step_inv_live (l : label) (s s' : session) :
  inv_term s -> inv_hist s -> inv_live s -> step l s = Some s' -> inv_live s'.
Proof.
  intros Ht Hh [Hl Hp] H. open_session s.
  unfold inv_hist, history, inv_live, inv_term, written, deferred_done in *.
  cbn in Ht, Hh, Hl, Hp.
  unfold_step. cbn in H.
  destruct calls as [|d0 calls]; destruct mn as [|r1|[e|]|[e|]|[e|]];
  split_step H; cbn; break_hyps; try discriminate; subst.
  all: try (split; [intros _; eauto | intros ? [=]]; fail).
  all: try (split; [intros [=] | intros ? [=]]; fail).
  all: split;
    [ intros Hc; try (destruct (Hl Hc) as [Hx | [? [Hx | Hx]]];
                      try discriminate Hx); eauto
    | intros ? Hm; try discriminate Hm;
      try (destruct (Hl eq_refl) as [Hx | [? [Hx | Hx]]];
           try discriminate Hx); eauto ].
Qed.

Lemma step_inv (l : label) (s s' : session) :
  inv s -> step l s = Some s' -> inv s'.
Proof.
  intros [Hc Ht Hn Hh Hl] H. split.
  - exact (step_inv_chan l s s' Hc H).
  - exact (step_inv_term l s s' Ht H).
  - exact (step_inv_calls l s s' Hn H).
  - exact (step_inv_hist l s s' Ht Hh Hl H).
  - exact (step_inv_live l s s' Ht Hh Hl H).
Qed.

Lemma run_inv (tr : list label) (s s' : session) :
  inv s -> run tr s = Some s' -> inv s'.
Proof.
  revert s. induction tr as [|l tr IH]; intros s Hs H; cbn in H.
  - now injection H as <-.
  - destruct (step l s) as [s1|] eqn:E; [|discriminate H].
    exact (IH s1 (step_inv l s s1 Hs E) H).
Qed.

Lemma run_app (tr1 tr2 : list label) (s : session) :
  run (tr1 ++ tr2) s =
    match run tr1 s with
    | Some s1 => run tr2 s1
    | None => None
    end.
Proof.
  revert s. induction tr1 as [|l tr1 IH]; intros s; cbn; [reflexivity|].
  destruct (step l s); [apply IH | reflexivity].
Qed.

(** ** The steps of [Communicate] taken together

    [Outbound] and [Deferred] reach no state of their own: each is two steps
    of the goroutine of [Communicate] with no step of the other goroutine in
    between. *)

Lemma Outbound_as_Receive_Write (w : option error) (s s' : session) :
  step (Outbound w) s = Some s' ->
  (step Receive s = Some s' /\ main s' = Returning None) \/
  exists s1, step Receive s = Some s1 /\ step (Write w) s1 = Some s'.
Proof.
  intros H. open_session s. unfold_step. cbn in H |- *.
  split_step H; cbn; eauto.
Qed.

Lemma Deferred_as_DeferredClose_Return (s s' : session) :
  inv_term s -> step Deferred s = Some s' ->
  exists s1, step DeferredClose s = Some s1 /\ step Return s1 = Some s'.
Proof.
  intros Ht H. open_session s. unfold inv_term in Ht. cbn in Ht.
  destruct calls as [|d0 calls]; break_hyps; subst;
    unfold_step; cbn in H |- *; split_step H; cbn; eauto.
Qed.

(** ** The Outbound Adapter: [Send] and [Close] *)

Lemma Send_closed_channel (t : grpcTransport) (reply : PreparedReply) :
  Chan.closed (replies t) = true ->
  grpcTransport_Send t reply = Panic "send on closed channel".
Proof.
  intros Hc. unfold grpcTransport_Send.
  now rewrite (select_send_closed _ _ Hc).
Qed.

(** C3: [Send] never blocks.  On the open reply queue of capacity 64, a
    queue holding fewer than 64 replies takes the reply at its tail and
    [Send] returns nil; a queue holding 64 makes [Send] return the overflow
    error at once, the transport (queue included) unchanged.  Either way
    [Send] returns. *)
Theorem Send_never_blocks (t : grpcTransport) (reply : PreparedReply) :
  Chan.closed (replies t) = false ->
  Chan.cap (replies t) = replyBufferSize ->
  (List.length (Chan.buf (replies t)) < replyBufferSize ->
   grpcTransport_Send t reply =
     Ret (mkTransport (closed t) (stream t)
            (Chan.mk replyBufferSize
               (Chan.buf (replies t) ++ [pr_Reply reply]) false),
          None)) /\
  (List.length (Chan.buf (replies t)) = replyBufferSize ->
   grpcTransport_Send t reply = Ret (t, Some overflow_error)) /\
  (exists r, grpcTransport_Send t reply = Ret r).
Proof.
  intros Hopen Hcap. unfold grpcTransport_Send.
  rewrite (select_send_open _ _ Hopen), Hcap.
  split; [|split].
  - intros Hlt. apply Nat.ltb_lt in Hlt. now rewrite Hlt.
  - intros Heq. rewrite Heq, Nat.ltb_irrefl. reflexivity.
  - destruct (_ <? _); eauto.
Qed.

(** C2: [Close] is idempotent.  The first call on a transport that is not
    yet closed, whose payload [json.Marshal] encodes, sets the trailer
    [disconnect] to that encoding, closes the reply queue and returns nil;
    every later call, whatever its payload, returns nil and changes nothing,
    so the trailer is the one of the first call. *)
Theorem Close_idempotent (t : grpcTransport) (d : DisconnectPtr) (j : string)
  (ds : list DisconnectPtr) :
  closed t = false ->
  Chan.closed (replies t) = false ->
  json_Marshal d = inl j ->
  let t1 := mkTransport true
              (mkStream (writes (stream t))
                        (trailer (stream t) ++ [("disconnect"%string, j)]))
              (Chan.mk (Chan.cap (replies t)) (Chan.buf (replies t)) true) in
  grpcTransport_Close t d = Ret (t1, None) /\
  (forall d', grpcTransport_Close t1 d' = Ret (t1, None)) /\
  Close_all t (d :: ds) = Ret (t1, repeat None (S (List.length ds))).
Proof.
  intros Hc Hopen Hj t1.
  assert (H1 : grpcTransport_Close t d = Ret (t1, None))
    by exact (Close_first_ok t d j Hc Hopen Hj).
  split; [|split].
  - exact H1.
  - intros d'. now apply Close_closed.
  - cbn [Close_all]. rewrite H1. cbn.
    rewrite (Close_all_closed t1 ds eq_refl). reflexivity.
Qed.

(** C4, as amended: [C = 1 + length ds] calls of [Close] on a transport that
    is not yet closed, in the order the mutex lets them in.  Every call but
    the first returns nil, and at most one trailer is attached.  When the
    first payload can be encoded, the first call returns nil too, its
    encoding is the one trailer attached and the queue ends closed, its
    contents kept; when it cannot, the first call alone returns the encoding
    error. *)
Theorem Close_many (t : grpcTransport) (d : DisconnectPtr)
  (ds : list DisconnectPtr) :
  closed t = false ->
  Chan.closed (replies t) = false ->
  exists t' r,
    Close_all t (d :: ds) = Ret (t', r :: repeat None (List.length ds)) /\
    closed t' = true /\
    List.length (trailer (stream t')) <= S (List.length (trailer (stream t))) /\
    match json_Marshal d with
    | inl j =>
        r = None /\
        trailer (stream t') = trailer (stream t) ++ [("disconnect"%string, j)] /\
        Chan.closed (replies t') = true /\
        Chan.buf (replies t') = Chan.buf (replies t)
    | inr e => r = Some e
    end.
Proof.
  intros Hc Hopen. cbn [Close_all].
  destruct (json_Marshal d) as [j|e] eqn:Hd.
  - rewrite (Close_first_ok t d j Hc Hopen Hd). cbn.
    rewrite Close_all_closed by reflexivity. cbn.
    do 2 eexists. repeat split. cbn. rewrite length_app. cbn. lia.
  - rewrite (Close_first_err t d e Hc Hd). cbn.
    rewrite Close_all_closed by reflexivity. cbn.
    do 2 eexists. repeat split. cbn. lia.
Qed.

(** *** A first [Close] whose payload cannot be encoded *)

Lemma step_wedged (l : label) (s s' : session) :
  wedged s -> not_drained (main s) -> step l s = Some s' ->
  wedged s' /\ not_drained (main s') /\
  trailer (stream (transport s')) = trailer (stream (transport s)).
Proof.
  intros [Hc Hopen] Hm H. open_session s. unfold wedged in *.
  cbn in Hc, Hopen, Hm. subst cl cc. unfold_step. cbn in H.
  split_step H; cbn; auto.
Qed.

Lemma run_wedged (tr : list label) (s s' : session) :
  wedged s -> not_drained (main s) -> run tr s = Some s' ->
  wedged s' /\ not_drained (main s') /\
  trailer (stream (transport s')) = trailer (stream (transport s)).
Proof.
  revert s. induction tr as [|l tr IH]; intros s Hw Hm H; cbn in H.
  - injection H as <-. auto.
  - destruct (step l s) as [s1|] eqn:E; [|discriminate H].
    destruct (step_wedged l s s1 Hw Hm E) as (Hw1 & Hm1 & Ht1).
    destruct (IH s1 Hw1 Hm1 H) as (Hw' & Hm' & Ht').
    rewrite Ht', Ht1. auto.
Qed.

Lemma outbound_blocked (w : option error) (s : session) :
  Chan.closed (replies (transport s)) = false ->
  Chan.buf (replies (transport s)) = [] ->
  step (Outbound w) s = None.
Proof.
  intros Hopen Hbuf. unfold step, outbound_iter, loop_receive, Chan.recv.
  rewrite Hbuf, Hopen. destruct (panicked s), (main s); reflexivity.
Qed.

Lemma receive_blocked (s : session) :
  Chan.closed (replies (transport s)) = false ->
  Chan.buf (replies (transport s)) = [] ->
  step Receive s = None.
Proof.
  intros Hopen Hbuf. unfold step, loop_receive, Chan.recv.
  rewrite Hbuf, Hopen. destruct (panicked s), (main s); reflexivity.
Qed.

(** C10: when the first [Close] cannot encode its payload, it returns the
    encoding error and leaves the transport with its [closed] flag set, the
    trailer as it was and the reply channel as it was.  Every later [Close],
    with any payload, returns nil and changes nothing.  In a session whose
    transport is in that state while [Communicate] is in its loop, whatever
    the two goroutines do next, the channel stays open and the trailer
    unset, [Communicate] never leaves its loop through the closed queue, and
    on the drained queue the receive of the loop is blocked. *)
Theorem Close_marshal_failure_wedges (t : grpcTransport) (d : DisconnectPtr)
  (e : error) :
  closed t = false ->
  Chan.closed (replies t) = false ->
  json_Marshal d = inr e ->
  let t1 := mkTransport true (stream t) (replies t) in
  grpcTransport_Close t d = Ret (t1, Some e) /\
  (forall ds, Close_all t1 ds = Ret (t1, repeat None (List.length ds))) /\
  (forall (s : session) (tr : list label) (s' : session),
     transport s = t1 -> main s = Looping -> run tr s = Some s' ->
     closed (transport s') = true /\
     Chan.closed (replies (transport s')) = false /\
     trailer (stream (transport s')) = trailer (stream t) /\
     main s' <> Returning None /\ main s' <> Returned None /\
     (Chan.buf (replies (transport s')) = [] ->
      forall w, step (Outbound w) s' = None) /\
     main s' <> Leaving None /\
     (Chan.buf (replies (transport s')) = [] -> step Receive s' = None)).
Proof.
  intros Hc Hopen He t1. split; [|split].
  - exact (Close_first_err t d e Hc He).
  - intros ds. now apply Close_all_closed.
  - intros s tr s' Ht Hm H.
    assert (Hw : wedged s) by (unfold wedged; rewrite Ht; cbn; auto).
    assert (Hn : not_drained (main s)) by (rewrite Hm; exact I).
    destruct (run_wedged tr s s' Hw Hn H) as ([Hc' Ho'] & Hn' & Ht').
    rewrite Ht', Ht. cbn.
    repeat split; auto.
    + intros E. rewrite E in Hn'. exact Hn'.
    + intros E. rewrite E in Hn'. exact Hn'.
    + intros Hb w. now apply outbound_blocked.
    + intros E. rewrite E in Hn'. exact Hn'.
    + intros Hb. now apply receive_blocked.
Qed.

(** ** The two loops *)

(** What one [c.Close] does to a session that satisfies [inv_term]. *)
Lemma client_Close_effect (s : session) (d : DisconnectPtr) :
  inv_term s ->
  let s' := client_Close s d in
  close_calls s' = close_calls s ++ [d] /\
  accepted s' = accepted s /\ inbound s' = inbound s /\
  main s' = main s /\ panicked s' = panicked s /\
  writes (stream (transport s')) = writes (stream (transport s)) /\
  Chan.buf (replies (transport s')) = Chan.buf (replies (transport s)) /\
  closed (transport s') = true /\
  (close_calls s = [] -> forall j, json_Marshal d = inl j ->
     trailer (stream (transport s')) = [("disconnect"%string, j)] /\
     Chan.closed (replies (transport s')) = true) /\
  (close_calls s <> [] -> transport s' = transport s).
Proof.
  intros Ht. open_session s. unfold inv_term in Ht. cbn in Ht.
  destruct calls as [|d0 calls]; break_hyps; subst;
    unfold client_Close, grpcTransport_Close, Chan.close, bind,
      set_transport, set_panicked, stream_SetTrailer, metadata_Pairs; cbn.
  - destruct (json_Marshal d) as [j|e] eqn:E; cbn;
      repeat split; try congruence.
    all: intros _ j' [=]; subst; reflexivity.
  - repeat split; congruence.
Qed.

Lemma successes_app (ws ws' : list (Reply * option error)) :
  successes (ws ++ ws') = successes ws ++ successes ws'.
Proof.
  unfold successes. now rewrite filter_app, map_app.
Qed.

Lemma not_In_ok_writes (rs : list Reply) (r : Reply) (e : error) :
  ~ In (r, Some e) (ok_writes rs).
Proof.
  unfold ok_writes. rewrite in_map_iff. intros (x & [=] & _).
Qed.

(** Once the channel is closed, the loop of [Communicate] writes what is
    queued, in order, and leaves with nil, if the network takes every write. *)
Lemma drain (bf : list Reply) :
  forall cl ws tr cp calls acc ib,
    run (repeat (Outbound None) (S (List.length bf)))
        (mkSession (mkTransport cl (mkStream ws tr) (Chan.mk cp bf true))
                   calls acc ib Looping None) =
      Some (mkSession
              (mkTransport cl (mkStream (ws ++ ok_writes bf) tr)
                           (Chan.mk cp [] true))
              calls acc ib (Returning None) None).
Proof.
  induction bf as [|x bf IH]; intros cl ws tr cp calls acc ib.
  - cbn. now rewrite app_nil_r.
  - change (repeat (Outbound None) (S (List.length (x :: bf))))
      with (Outbound None :: repeat (Outbound None) (S (List.length bf))).
    cbn [run]. unfold step at 1.
    unfold outbound_iter, loop_receive, loop_write, Chan.recv, stream_Send,
      set_transport, set_main.
    cbn -[run repeat].
    rewrite IH. unfold ok_writes. cbn. now rewrite <- app_assoc.
Qed.

Lemma drain_session (s : session) :
  panicked s = None -> main s = Looping ->
  Chan.closed (replies (transport s)) = true ->
  exists s',
    run (repeat (Outbound None)
           (S (List.length (Chan.buf (replies (transport s)))))) s = Some s' /\
    main s' = Returning None /\
    written (stream (transport s')) =
      written (stream (transport s)) ++ Chan.buf (replies (transport s)) /\
    accepted s' = accepted s /\ close_calls s' = close_calls s /\
    inbound s' = inbound s.
Proof.
  intros Hp Hm Hc. open_session s. cbn in *. subst.
  eexists. split; [apply drain|]. cbn. unfold written. cbn.
  rewrite successes_app, successes_ok_writes. auto.
Qed.

Lemma looping_not_panicked (s : session) :
  inv s -> main s = Looping -> panicked s = None.
Proof.
  intros Hs Hm. destruct (panicked s) as [msg|] eqn:E; [|reflexivity].
  destruct (inv_live_ok Hs) as [_ Hp].
  destruct (Hp msg E) as (_ & e & [He | He]); congruence.
Qed.

Lemma writing_not_panicked (s : session) (r : Reply) :
  inv s -> main s = Writing r -> panicked s = None.
Proof.
  intros Hs Hm. destruct (panicked s) as [msg|] eqn:E; [|reflexivity].
  destruct (inv_live_ok Hs) as [_ Hp].
  destruct (Hp msg E) as (_ & e & [He | He]); congruence.
Qed.

Lemma returning_not_panicked (s : session) (err : option error) :
  inv s -> main s = Returning err -> panicked s = None.
Proof.
  intros Hs Hm. destruct (panicked s) as [msg|] eqn:E; [|reflexivity].
  destruct (inv_live_ok Hs) as [_ Hp].
  destruct (Hp msg E) as (_ & e & [He | He]); congruence.
Qed.

Lemma drain_writing (s : session) (r : Reply) :
  panicked s = None -> main s = Writing r ->
  Chan.closed (replies (transport s)) = true ->
  exists s',
    run (Write None ::
         repeat (Outbound None)
           (S (List.length (Chan.buf (replies (transport s)))))) s = Some s' /\
    main s' = Returning None /\
    written (stream (transport s')) =
      written (stream (transport s)) ++ r :: Chan.buf (replies (transport s)) /\
    accepted s' = accepted s /\ close_calls s' = close_calls s /\
    inbound s' = inbound s.
Proof.
  intros Hp Hm Hc. open_session s. cbn in *. subst.
  eexists. split.
  - cbn [run]. unfold step at 1. cbn [panicked main].
    unfold loop_write, stream_Send, set_transport, set_main.
    cbn -[run repeat]. apply drain.
  - cbn. unfold written. cbn.
    rewrite successes_app, successes_snoc_ok, successes_ok_writes.
    rewrite <- app_assoc. auto.
Qed.

Lemma step_loop_left (l : label) (s s' : session) (err : option error) :
  left_loop (main s) err -> step l s = Some s' ->
  left_loop (main s') err /\
  writes (stream (transport s')) = writes (stream (transport s)).
Proof.
  intros Hm H. open_session s. cbn in Hm. unfold left_loop in *.
  unfold_step. cbn in H.
  destruct Hm as [-> | [-> | ->]]; split_step H; cbn; auto.
Qed.

Lemma run_loop_left (tr : list label) (s s' : session) (err : option error) :
  left_loop (main s) err -> run tr s = Some s' ->
  left_loop (main s') err /\
  writes (stream (transport s')) = writes (stream (transport s)).
Proof.
  revert s. induction tr as [|l tr IH]; intros s Hm H; cbn in H.
  - injection H as <-. auto.
  - destruct (step l s) as [s1|] eqn:E; [|discriminate H].
    destruct (step_loop_left l s s1 err Hm E) as (Hm1 & Hw1).
    destruct (IH s1 Hm1 H) as (Hm' & Hw'). split; [exact Hm' | congruence].
Qed.

(** What the invariant [inv_hist] says of a session whose loop is over. *)
Lemma left_loop_history (s : session) (err : option error) :
  inv s -> left_loop (main s) err -> history s err.
Proof.
  intros Hs Hm. pose proof (inv_hist_ok Hs) as Hh. unfold inv_hist in Hh.
  destruct Hm as [Hm | [Hm | Hm]]; now rewrite Hm in Hh.
Qed.

(** C1, as amended: in every state [Communicate] reaches, the replies
    written to the stream are a prefix of the replies [Send] accepted, in
    the order it accepted them.  If no stream write has failed, a loop that
    has ended has written exactly the accepted replies, in order; and once
    the queue is closed, the loop, given successful writes, writes the reply
    it holds and those queued and ends so.  If a write has failed, the loop
    has ended with that error: the replies written are the accepted ones
    before the reply whose write failed, and none is written afterwards,
    whatever the goroutines still do. *)
Theorem outbound_fifo (tr : list label) (s : session) :
  run tr Communicate_start = Some s ->
  let st := stream (transport s) in
  let bf := Chan.buf (replies (transport s)) in
  (exists rest, accepted s = written st ++ rest) /\
  ((forall r e, ~ In (r, Some e) (writes st)) -> ~ in_loop (main s) ->
   written st = accepted s) /\
  (in_loop (main s) -> Chan.closed (replies (transport s)) = true ->
   exists s',
     run (finish_loop (main s) (List.length bf)) s = Some s' /\
     main s' = Returning None /\
     written (stream (transport s')) = accepted s /\
     accepted s' = accepted s) /\
  (forall r e, In (r, Some e) (writes st) ->
     left_loop (main s) (Some e) /\
     (exists rest, accepted s = written st ++ r :: rest) /\
     forall (tr' : list label) (s' : session),
       run tr' s = Some s' ->
       written (stream (transport s')) = written st).
Proof.
  intros H st bf. subst st bf.
  pose proof (run_inv tr _ s inv_start H) as Hs.
  pose proof (inv_hist_ok Hs) as Hh. unfold inv_hist, history in Hh.
  split; [|split; [|split]].
  - destruct (main s) as [|r1|[e|]|[e|]|[e|]]; break_hyps; eauto.
    all: exists []; now rewrite app_nil_r.
  - intros Hok Hm.
    destruct (main s) as [|r1|[e|]|[e|]|[e|]]; break_hyps; try congruence.
    all: try (exfalso; apply Hm; unfold in_loop; eauto; fail).
    all: exfalso; match goal with
                  | Hw : writes _ = _ ++ [(?r, Some ?e)] |- _ =>
                      apply (Hok r e); rewrite Hw; apply in_or_app; right;
                      now left
                  end.
  - intros [Hm | [r Hm]] Hc; rewrite Hm in Hh |- *; cbn [finish_loop];
      destruct Hh as [_ Hacc].
    + destruct (drain_session s (looping_not_panicked s Hs Hm) Hm Hc)
        as (s' & Hrun & Hm' & Hw & Ha & _).
      exists s'. repeat split; congruence.
    + destruct (drain_writing s r (writing_not_panicked s r Hs Hm) Hm Hc)
        as (s' & Hrun & Hm' & Hw & Ha & _).
      exists s'. repeat split; congruence.
  - intros r e Hin.
    assert (Hleft : left_loop (main s) (Some e) /\
                    exists rest, accepted s =
                      written (stream (transport s)) ++ r :: rest).
    { destruct (main s) as [|r1|[e'|]|[e'|]|[e'|]]; break_hyps;
        match goal with Hw : writes _ = _ |- _ => rewrite Hw in Hin end;
        try (apply not_In_ok_writes in Hin; contradiction).
      all: apply in_app_or in Hin; destruct Hin as [Hin | [[=] | []]];
        [apply not_In_ok_writes in Hin; contradiction | subst].
      all: unfold left_loop; split; eauto. }
    destruct Hleft as (Hleft & Hrest). split; [exact Hleft|].
    split; [exact Hrest|].
    intros tr' s' Hrun.
    destruct (run_loop_left tr' s s' (Some e) Hleft Hrun) as (_ & Hw).
    unfold written. now rewrite Hw.
Qed.

(** C5, as amended: [c.Close] is invoked once by each goroutine as it
    leaves, by the reading loop on its exit, whatever the cause, and by the
    deferred call when [Communicate] returns.  So it has been invoked at
    least once when [Communicate] has returned, never more than twice in a
    session and twice when both have left; and the termination it triggers
    attaches at most one trailer. *)
Theorem client_Close_invocations (tr : list label) (s : session) :
  run tr Communicate_start = Some s ->
  List.length (close_calls s) =
    (match inbound s with Exited => 1 | _ => 0 end) +
    (match main s with Leaving _ | Returned _ => 1 | _ => 0 end) /\
  List.length (close_calls s) <= 2 /\
  (forall err, returned s = Some err -> 1 <= List.length (close_calls s)) /\
  (forall err, returned s = Some err -> inbound s = Exited ->
     List.length (close_calls s) = 2) /\
  List.length (trailer (stream (transport s))) <= 1.
Proof.
  intros H. pose proof (run_inv tr _ s inv_start H) as Hs.
  pose proof (inv_calls_ok Hs) as Hn. unfold inv_calls in Hn.
  pose proof (inv_term_ok Hs) as Ht. unfold inv_term in Ht.
  unfold returned.
  split; [exact Hn|]. split; [|split; [|split]].
  - destruct (inbound s), (main s); lia.
  - intros err. destruct (main s); intros [=]. lia.
  - intros err. destruct (main s); intros [=] Hi. rewrite Hi in Hn. lia.
  - destruct (close_calls s) as [|d0 calls]; break_hyps.
    + match goal with E : trailer _ = [] |- _ => rewrite E end. cbn. lia.
    + destruct (json_Marshal d0); break_hyps;
        match goal with E : trailer _ = _ |- _ => rewrite E end; cbn; lia.
Qed.

Lemma step_inbound_main (l : label) (s s' : session) :
  of_inbound l = true -> step l s = Some s' ->
  main s' = main s /\
  writes (stream (transport s')) = writes (stream (transport s)).
Proof.
  intros Hl H. open_session s. unfold_step. cbn in H.
  destruct l; try discriminate Hl; split_step H; cbn; auto.
Qed.

(** The goroutine that is about to make the first [c.Close] of the session,
    with a payload that can be encoded, closes the queue; [Communicate],
    its writes succeeding, then drains the queue and returns nil. *)
Lemma closing_leads_to_nil (s : session) (d : DisconnectPtr) (j : string) :
  inv s -> inbound s = Closing d -> json_Marshal d = inl j ->
  in_loop (main s) ->
  exists s',
    run (InboundExit ::
         finish_loop (main s)
           (List.length (Chan.buf (replies (transport s)))) ++
         [DeferredClose; Return]) s = Some s' /\
    returned s' = Some None /\
    written (stream (transport s')) = accepted s /\
    trailer (stream (transport s')) = [("disconnect"%string, j)] /\
    close_calls s' = [d; DisconnectNormal].
Proof.
  intros Hs Hi Hj Hm.
  assert (Hp : panicked s = None).
  { destruct Hm as [Hm | [r Hm]];
      [exact (looping_not_panicked s Hs Hm)
      | exact (writing_not_panicked s r Hs Hm)]. }
  assert (Hnil : close_calls s = []).
  { pose proof (inv_calls_ok Hs) as Hn. unfold inv_calls in Hn.
    rewrite Hi in Hn.
    destruct Hm as [Hm | [r Hm]]; rewrite Hm in Hn;
      now destruct (close_calls s). }
  destruct (client_Close_effect s d (inv_term_ok Hs))
    as (Hc & Ha & _ & Hmn & Hpn & _ & Hb & _ & Hfirst & _).
  destruct (Hfirst Hnil j Hj) as (Htr & Hcl).
  set (s1 := inbound_exit d s).
  assert (E1 : step InboundExit s = Some s1)
    by (unfold step; now rewrite Hp, Hi).
  assert (Hs1 : inv s1) by exact (step_inv _ s s1 Hs E1).
  assert (Hm1 : main s1 = main s) by exact Hmn.
  assert (Hb1 : Chan.buf (replies (transport s1)) =
                Chan.buf (replies (transport s))) by exact Hb.
  assert (Hc1 : Chan.closed (replies (transport s1)) = true) by exact Hcl.
  assert (Hdrain : exists s2,
             run (finish_loop (main s)
                    (List.length (Chan.buf (replies (transport s))))) s1 =
               Some s2 /\
             main s2 = Returning None /\ accepted s2 = accepted s /\
             close_calls s2 = [d] /\
             trailer (stream (transport s2)) = [("disconnect"%string, j)]).
  { rewrite <- Hb1.
    assert (Hkeep : forall (tr2 : list label) s2, run tr2 s1 = Some s2 ->
              trailer (stream (transport s2)) = [("disconnect"%string, j)]).
    { intros tr2 s2 Hr.
      pose proof (inv_term_ok (run_inv tr2 s1 s2 Hs1 Hr)) as Ht2.
      pose proof (inv_calls_ok (run_inv tr2 s1 s2 Hs1 Hr)) as Hn2.
      unfold inv_term in Ht2. unfold inv_calls in Hn2.
      revert Ht2. clear Hn2.
      assert (Hhead : exists rest, close_calls s2 = d :: rest).
      { clear - Hr Hc Hnil. subst s1. revert Hr.
        assert (Hstart : exists rest,
                  close_calls (inbound_exit d s) = d :: rest).
        { exists []. unfold inbound_exit. cbn. rewrite Hc, Hnil.
          reflexivity. }
        revert Hstart. generalize (inbound_exit d s). clear.
        induction tr2 as [|l tr2 IH]; intros s0 Hstart Hr; cbn in Hr.
        - injection Hr as <-. exact Hstart.
        - destruct (step l s0) as [s3|] eqn:E; [|discriminate Hr].
          apply (IH s3); [|exact Hr].
          destruct Hstart as (rest & Hrest). clear - E Hrest.
          open_session s0. cbn in Hrest. subst. unfold_step. cbn in E.
          split_step E; cbn; eauto. }
      destruct Hhead as (rest & ->). rewrite Hj.
      intros (_ & _ & Ht2). exact Ht2. }
    destruct Hm as [Hm | [r Hm]]; rewrite Hm in Hm1 |- *; cbn [finish_loop].
    - destruct (drain_session s1 (looping_not_panicked s1 Hs1 Hm1) Hm1 Hc1)
        as (s2 & Hrun & Hm2 & _ & Ha2 & Hc2 & _).
      exists s2. split; [exact Hrun|]. split; [exact Hm2|].
      split; [now rewrite Ha2|]. split; [|exact (Hkeep _ _ Hrun)].
      rewrite Hc2. unfold s1, inbound_exit. cbn. now rewrite Hc, Hnil.
    - destruct (drain_writing s1 r (writing_not_panicked s1 r Hs1 Hm1) Hm1 Hc1)
        as (s2 & Hrun & Hm2 & _ & Ha2 & Hc2 & _).
      exists s2. split; [exact Hrun|]. split; [exact Hm2|].
      split; [now rewrite Ha2|]. split; [|exact (Hkeep _ _ Hrun)].
      rewrite Hc2. unfold s1, inbound_exit. cbn. now rewrite Hc, Hnil. }
  destruct Hdrain as (s2 & Hrun & Hm2 & Ha2 & Hc2 & Ht2).
  assert (Hs2 : inv s2) by exact (run_inv _ s1 s2 Hs1 Hrun).
  pose proof (returning_not_panicked s2 None Hs2 Hm2) as Hp2.
  pose proof (inv_hist_ok Hs2) as Hh2. unfold inv_hist in Hh2.
  rewrite Hm2 in Hh2. destruct Hh2 as (_ & Hacc & _).
  destruct (client_Close_effect s2 DisconnectNormal (inv_term_ok Hs2))
    as (Hc3 & _ & _ & _ & Hp3 & Hw3 & _ & _ & _ & Hsame).
  exists (main_return None (deferred_call None s2)).
  split.
  - cbn [run]. rewrite E1. rewrite run_app, Hrun. cbn [run].
    unfold step at 1. rewrite Hp2, Hm2.
    unfold step. unfold deferred_call at 1 2. cbn [panicked main set_main].
    rewrite Hp3, Hp2. reflexivity.
  - assert (Hne : close_calls s2 <> []) by (rewrite Hc2; discriminate).
    unfold main_return, deferred_call, returned. cbn.
    rewrite (Hsame Hne), Hc3, Hc2.
    repeat split; auto. congruence.
Qed.

(** C6, as amended: [Communicate] returns a non-nil error only if a
    [stream.Send] of its loop has failed, and the error is that write's: in
    every state it reaches, it has left its loop with [e] to return if and
    only if a write failed with [e].  It leaves with nil only once it has
    found the queue closed and drained, no write having failed and the
    reading goroutine gone.  Nothing the reading goroutine does changes what
    [Communicate] returns: a read error, an engine disconnect and a full
    queue each leave it about to call [c.Close] and exit; and when that is
    the first close of the session and its payload can be encoded,
    [Communicate], its writes succeeding, drains the queue and returns nil.
    A pending return runs the deferred [c.Close] and then, no panic having
    arisen, returns; a nil return always completes. *)
Theorem Communicate_return_value (tr : list label) (s : session) :
  run tr Communicate_start = Some s ->
  let st := stream (transport s) in
  (forall e, left_loop (main s) (Some e) <->
             exists r, In (r, Some e) (writes st)) /\
  (left_loop (main s) None ->
   Chan.closed (replies (transport s)) = true /\
   Chan.buf (replies (transport s)) = [] /\
   inbound s = Exited /\ panicked s = None /\
   written st = accepted s /\
   forall r e, ~ In (r, Some e) (writes st)) /\
  (forall (l : label) s', of_inbound l = true -> step l s = Some s' ->
     main s' = main s /\ returned s' = returned s) /\
  ((forall err (h : Handle_result) s1,
      step (Inbound (RecvError err) h) s = Some s1 ->
      inbound s1 = Closing DisconnectNormal) /\
   (forall (cmd : Command) (rep : option Reply) d s1,
      step (Inbound (Recv cmd) (rep, Some d)) s = Some s1 ->
      inbound s1 = Closing (Some d)) /\
   (forall (cmd : Command) (rep : Reply) t' err s1,
      grpcTransport_Send (transport s) (NewPreparedReply rep EncodingProtobuf) =
        Ret (t', Some err) ->
      step (Inbound (Recv cmd) (Some rep, None)) s = Some s1 ->
      inbound s1 = Closing send_failed_disconnect)) /\
  (forall d j, inbound s = Closing d -> json_Marshal d = inl j ->
     in_loop (main s) ->
     exists s',
       run (InboundExit ::
            finish_loop (main s)
              (List.length (Chan.buf (replies (transport s)))) ++
            [DeferredClose; Return]) s = Some s' /\
       returned s' = Some None /\
       written (stream (transport s')) = accepted s /\
       trailer (stream (transport s')) = [("disconnect"%string, j)] /\
       close_calls s' = [d; DisconnectNormal]) /\
  (forall err, main s = Returning err ->
     exists s1, step DeferredClose s = Some s1 /\ main s1 = Leaving err /\
                panicked s1 = None) /\
  (forall err, main s = Leaving err -> panicked s = None ->
     exists s2, step Return s = Some s2 /\ returned s2 = Some err) /\
  (main s = Leaving None -> panicked s = None).
Proof.
  intros H st. subst st.
  pose proof (run_inv tr _ s inv_start H) as Hs.
  pose proof (inv_hist_ok Hs) as Hh. unfold inv_hist, history in Hh.
  assert (Hnil : left_loop (main s) None -> panicked s = None).
  { intros Hm. destruct (panicked s) as [msg|] eqn:E; [|reflexivity].
    destruct (inv_live_ok Hs) as [_ Hp].
    destruct (Hp msg E) as (Hrun & _).
    pose proof (left_loop_history s None Hs Hm) as (_ & _ & _ & _ & Hex).
    congruence. }
  split; [|split; [|split; [|split; [|split; [|split; [|split]]]]]].
  - intros e. split.
    + intros [Hm | [Hm | Hm]]; rewrite Hm in Hh; destruct Hh as (r & Hw & _);
        exists r; rewrite Hw; apply in_or_app; right; now left.
    + intros (r & Hin).
      destruct (main s) as [|r1|[e'|]|[e'|]|[e'|]]; break_hyps;
        match goal with Hw : writes _ = _ |- _ => rewrite Hw in Hin end;
        try (apply not_In_ok_writes in Hin; contradiction).
      all: apply in_app_or in Hin; destruct Hin as [Hin | [[=] | []]];
        [apply not_In_ok_writes in Hin; contradiction
        | subst; unfold left_loop; auto].
  - intros Hm. pose proof (Hnil Hm) as Hp.
    destruct (left_loop_history s None Hs Hm) as (Hw & Ha & Hb & Hc & Hi).
    repeat split; auto.
    intros r e. rewrite Hw. apply not_In_ok_writes.
  - intros l s' Hl Hstep.
    destruct (step_inbound_main l s s' Hl Hstep) as (Hm & _).
    split; [exact Hm|]. unfold returned. now rewrite Hm.
  - split; [|split].
    + intros err h s1 Hstep. unfold step in Hstep.
      destruct (panicked s); [discriminate Hstep|].
      destruct (inbound s); try discriminate Hstep.
      injection Hstep as <-. unfold inbound_iter.
      now destruct (String.eqb err io_EOF).
    + intros cmd rep d s1 Hstep. unfold step in Hstep.
      destruct (panicked s); [discriminate Hstep|].
      destruct (inbound s); try discriminate Hstep.
      injection Hstep as <-. reflexivity.
    + intros cmd rep t' err s1 HS Hstep. unfold step in Hstep.
      destruct (panicked s); [discriminate Hstep|].
      destruct (inbound s); try discriminate Hstep.
      injection Hstep as <-. unfold inbound_iter. rewrite HS. reflexivity.
  - intros d j Hi Hj Hm. exact (closing_leads_to_nil s d j Hs Hi Hj Hm).
  - intros err Hm. unfold step.
    pose proof (returning_not_panicked s err Hs Hm) as Hp.
    rewrite Hp, Hm.
    destruct (client_Close_effect s DisconnectNormal (inv_term_ok Hs))
      as (_ & _ & _ & _ & Hp' & _).
    eexists. split; [reflexivity|]. unfold deferred_call. cbn.
    split; [reflexivity | now rewrite Hp'].
  - intros err Hm Hp. unfold step. rewrite Hp, Hm.
    eexists. split; reflexivity.
  - intros Hm. apply Hnil. unfold left_loop. auto.
Qed.

Lemma Send_error_inv (t t' : grpcTransport) (reply : PreparedReply)
  (err : error) :
  grpcTransport_Send t reply = Ret (t', Some err) ->
  err = overflow_error /\ t' = t /\ Chan.closed (replies t) = false /\
  Chan.cap (replies t) <= List.length (Chan.buf (replies t)).
Proof.
  unfold grpcTransport_Send, Chan.select_send.
  destruct (Chan.closed (replies t)); [discriminate|].
  destruct (_ <? _) eqn:E; intros [=]; subst.
  apply Nat.ltb_ge in E. auto.
Qed.

Lemma set_transport_same (s : session) : set_transport s (transport s) = s.
Proof. now destruct s. Qed.

(** C7: when the [Send] of a reading-loop iteration fails, the error is
    the overflow error, nothing was queued, and the goroutine is left about
    to run [c.Close(d); return] with
    [d = {Reason: "error sending message", Reconnect: true}], whose reconnect
    hint is true.  That call is enabled and ends the loop: the close is
    recorded with [d], what [Communicate] returns is untouched, and if it is
    the first close of the session and [d] can be encoded, the trailer
    carries it and the queue is closed. *)
Theorem inbound_overflow_disconnect (tr : list label) (s s1 : session)
  (cmd : Command) (rep : Reply) (t' : grpcTransport) (err : error) :
  run tr Communicate_start = Some s ->
  grpcTransport_Send (transport s) (NewPreparedReply rep EncodingProtobuf) =
    Ret (t', Some err) ->
  step (Inbound (Recv cmd) (Some rep, None)) s = Some s1 ->
  let d := Some {| Reason := "error sending message"; Reconnect := true |} in
  err = overflow_error /\ t' = transport s /\
  s1 = set_inbound s (Closing d) /\
  option_map Reconnect d = Some true /\
  exists s2,
    step InboundExit s1 = Some s2 /\
    inbound s2 = Exited /\
    close_calls s2 = close_calls s ++ [d] /\
    accepted s2 = accepted s /\ main s2 = main s /\
    panicked s2 = None /\
    (close_calls s = [] -> forall j, json_Marshal d = inl j ->
       trailer (stream (transport s2)) = [("disconnect"%string, j)] /\
       Chan.closed (replies (transport s2)) = true).
Proof.
  intros H HS Hstep d.
  pose proof (run_inv tr _ s inv_start H) as Hs.
  destruct (Send_error_inv _ _ _ _ HS) as (-> & -> & _ & _).
  unfold step in Hstep.
  destruct (panicked s) eqn:Hp; [discriminate Hstep|].
  destruct (inbound s) eqn:Hi; try discriminate Hstep.
  injection Hstep as <-. unfold inbound_iter. rewrite HS.
  rewrite set_transport_same.
  repeat (split; [reflexivity|]).
  assert (Ht : inv_term (set_inbound s (Closing d)))
    by exact (inv_term_ok Hs).
  destruct (client_Close_effect (set_inbound s (Closing d)) d Ht)
    as (Hc & Ha & _ & Hm & Hp' & _ & _ & _ & Hfirst & _).
  exists (inbound_exit d (set_inbound s (Closing d))).
  split; [unfold step; cbn; now rewrite Hp|].
  unfold inbound_exit. cbn.
  repeat (split; [solve [auto] | ]).
  split; [now rewrite Hp'|].
  intros Hnil j Hj. exact (Hfirst Hnil j Hj).
Qed.

(** C8: when [stream.Recv] returns an error, [io.EOF] or any other, the
    iteration leaves the goroutine about to run
    [c.Close(proto.DisconnectNormal); return], the session otherwise as it
    was.  That call is enabled and ends the loop: the close is recorded with
    the normal disconnect, no panic arises, and what [Communicate] returns
    is untouched, so the read error goes nowhere else.  If it is the first
    close of the session and the payload can be encoded, the trailer carries
    the normal disconnect and the queue is closed. *)
Theorem inbound_read_error_normal_disconnect (tr : list label) (s s1 : session)
  (err : error) (h : Handle_result) :
  run tr Communicate_start = Some s ->
  step (Inbound (RecvError err) h) s = Some s1 ->
  s1 = set_inbound s (Closing DisconnectNormal) /\
  exists s2,
    step InboundExit s1 = Some s2 /\
    inbound s2 = Exited /\
    close_calls s2 = close_calls s ++ [DisconnectNormal] /\
    accepted s2 = accepted s /\ main s2 = main s /\
    panicked s2 = None /\
    writes (stream (transport s2)) = writes (stream (transport s)) /\
    (close_calls s = [] -> forall j, json_Marshal DisconnectNormal = inl j ->
       trailer (stream (transport s2)) = [("disconnect"%string, j)] /\
       Chan.closed (replies (transport s2)) = true).
Proof.
  intros H Hstep.
  pose proof (run_inv tr _ s inv_start H) as Hs.
  unfold step in Hstep.
  destruct (panicked s) eqn:Hp; [discriminate Hstep|].
  destruct (inbound s) eqn:Hi; try discriminate Hstep.
  assert (E : inbound_iter (RecvError err) h s =
              set_inbound s (Closing DisconnectNormal)).
  { unfold inbound_iter. now destruct (String.eqb err io_EOF). }
  rewrite E in Hstep. injection Hstep as <-. split; [reflexivity|].
  assert (Ht : inv_term (set_inbound s (Closing DisconnectNormal)))
    by exact (inv_term_ok Hs).
  destruct (client_Close_effect
              (set_inbound s (Closing DisconnectNormal)) DisconnectNormal Ht)
    as (Hc & Ha & _ & Hm & Hp' & Hw & _ & _ & Hfirst & _).
  exists (inbound_exit DisconnectNormal
            (set_inbound s (Closing DisconnectNormal))).
  split; [unfold step; cbn; now rewrite Hp|].
  unfold inbound_exit. cbn.
  repeat (split; [solve [auto] | ]).
  split; [now rewrite Hp'|].
  split; [exact Hw|].
  intros Hnil j Hj. exact (Hfirst Hnil j Hj).
Qed.

(** ** What every schedule keeps *)

Lemma length_ok_writes (rs : list Reply) :
  List.length (ok_writes rs) = List.length rs.
Proof. unfold ok_writes. apply length_map. Qed.

Lemma step_grows (l : label) (s s' : session) :
  step l s = Some s' ->
  (closed (transport s) = true -> closed (transport s') = true) /\
  (Chan.closed (replies (transport s)) = true ->
   Chan.closed (replies (transport s')) = true) /\
  (exists more, close_calls s' = close_calls s ++ more) /\
  (exists ws, writes (stream (transport s')) =
              writes (stream (transport s)) ++ ws) /\
  (exists rs, accepted s' = accepted s ++ rs) /\
  (exists md, trailer (stream (transport s')) =
              trailer (stream (transport s)) ++ md).
Proof.
  intros H. open_session s. unfold_step. cbn in H.
  split_step H; cbn.
  all: repeat match goal with
              | |- _ /\ _ => split
              | |- _ = true -> _ => intros Hx; try discriminate Hx; auto
              | |- exists _, ?x = ?x ++ _ =>
                  exists []; symmetry; apply app_nil_r
              | |- exists _, ?x ++ ?y = ?x ++ _ => exists y; reflexivity
              end.
Qed.

Lemma run_grows (tr : list label) (s s' : session) :
  run tr s = Some s' ->
  (closed (transport s) = true -> closed (transport s') = true) /\
  (Chan.closed (replies (transport s)) = true ->
   Chan.closed (replies (transport s')) = true) /\
  (exists more, close_calls s' = close_calls s ++ more) /\
  (exists ws, writes (stream (transport s')) =
              writes (stream (transport s)) ++ ws) /\
  (exists rs, accepted s' = accepted s ++ rs) /\
  (exists md, trailer (stream (transport s')) =
              trailer (stream (transport s)) ++ md).
Proof.
  revert s. induction tr as [|l tr IH]; intros s H; cbn in H.
  - injection H as <-. repeat split; auto; exists []; symmetry; apply app_nil_r.
  - destruct (step l s) as [s1|] eqn:E; [|discriminate H].
    destruct (step_grows l s s1 E)
      as (Hc & Hq & [m1 Hm] & [w1 Hw] & [a1 Ha] & [t1 Ht]).
    destruct (IH s1 H)
      as (Hc' & Hq' & [m2 Hm'] & [w2 Hw'] & [a2 Ha'] & [t2 Ht']).
    split; [auto|]. split; [auto|].
    split; [exists (m1 ++ m2); now rewrite Hm', Hm, app_assoc|].
    split; [exists (w1 ++ w2); now rewrite Hw', Hw, app_assoc|].
    split; [exists (a1 ++ a2); now rewrite Ha', Ha, app_assoc|].
    exists (t1 ++ t2). now rewrite Ht', Ht, app_assoc.
Qed.

Lemma step_closed_freezes (l : label) (s s' : session) :
  Chan.closed (replies (transport s)) = true ->
  step l s = Some s' ->
  accepted s' = accepted s /\
  exists taken, Chan.buf (replies (transport s)) =
                taken ++ Chan.buf (replies (transport s')).
Proof.
  intros Hc H. open_session s. cbn in Hc. subst cc. unfold_step. cbn in H.
  split_step H; cbn.
  all: split; [reflexivity|].
  all: first [ exists []; reflexivity | eexists [_]; reflexivity ].
Qed.

Lemma run_closed_freezes (tr : list label) (s s' : session) :
  Chan.closed (replies (transport s)) = true ->
  run tr s = Some s' ->
  accepted s' = accepted s /\
  exists taken, Chan.buf (replies (transport s)) =
                taken ++ Chan.buf (replies (transport s')).
Proof.
  revert s. induction tr as [|l tr IH]; intros s Hc H; cbn in H.
  - injection H as <-. split; [reflexivity | now exists []].
  - destruct (step l s) as [s1|] eqn:E; [|discriminate H].
    destruct (step_closed_freezes l s s1 Hc E) as (Ha & t1 & Hb).
    destruct (step_grows l s s1 E) as (_ & Hq & _).
    destruct (IH s1 (Hq Hc) H) as (Ha' & t2 & Hb').
    split; [congruence|]. exists (t1 ++ t2).
    now rewrite Hb, Hb', app_assoc.
Qed.

(** X6: the stream is written by the loop of [Communicate] alone, and that
    loop touches nothing else of the termination.  A step of the spawned
    goroutine or the deferred close adds no [stream.Send] and only ever
    appends to the queue; a step of the spawned goroutine leaves what
    [Communicate] returns alone; an iteration of the loop leaves the
    [c.Close] calls, the accepted replies, the [closed] flag, the trailer and
    the channel's closure as they were. *)
Theorem stream_written_by_main_loop_only (l : label) (s s' : session) :
  step l s = Some s' ->
  (of_main_loop l = false ->
   writes (stream (transport s')) = writes (stream (transport s)) /\
   exists rs, Chan.buf (replies (transport s')) =
              Chan.buf (replies (transport s)) ++ rs) /\
  (of_inbound l = true -> main s' = main s) /\
  (of_main_loop l = true ->
   close_calls s' = close_calls s /\ accepted s' = accepted s /\
   inbound s' = inbound s /\ panicked s' = panicked s /\
   closed (transport s') = closed (transport s) /\
   trailer (stream (transport s')) = trailer (stream (transport s)) /\
   Chan.closed (replies (transport s')) = Chan.closed (replies (transport s))).
Proof.
  intros H. open_session s. destruct l; unfold_step; cbn in H |- *.
  all: split_step H; cbn.
  all: repeat match goal with
              | |- _ /\ _ => split
              | |- _ = _ -> _ => intros Hx; try discriminate Hx
              | |- exists _, ?x = ?x ++ _ =>
                  exists []; symmetry; apply app_nil_r
              | |- exists _, ?x ++ ?y = ?x ++ _ => exists y; reflexivity
              | |- _ => reflexivity
              end.
Qed.

Lemma step_panic_message (l : label) (s s' : session) :
  inv_term s -> step l s = Some s' ->
  forall msg, panicked s' = Some msg ->
              msg = "send on closed channel"%string.
Proof.
  intros Ht H. open_session s. unfold inv_term in Ht. cbn in Ht.
  destruct calls as [|d0 calls]; break_hyps; subst;
    unfold_step; cbn in H; split_step H; cbn; intros msg [=]; auto;
    try discriminate.
Qed.

Lemma run_panic_message (tr : list label) (s s' : session) :
  inv s -> panicked s = None -> run tr s = Some s' ->
  forall msg, panicked s' = Some msg ->
              msg = "send on closed channel"%string.
Proof.
  revert s. induction tr as [|l tr IH]; intros s Hs Hp H; cbn in H.
  - injection H as <-. intros msg Hm. congruence.
  - destruct (step l s) as [s1|] eqn:E; [|discriminate H].
    destruct (panicked s1) as [m1|] eqn:Hp1.
    + destruct tr as [|l' tr]; cbn in H.
      * injection H as <-. intros msg Hm.
        apply (step_panic_message l s s1 (inv_term_ok Hs) E). congruence.
      * unfold step in H. rewrite Hp1 in H. discriminate H.
    + exact (IH s1 (step_inv l s s1 Hs E) Hp1 H).
Qed.

Lemma step_after_return (l : label) (s s' : session) (err : option error) :
  main s = Returned err -> step l s = Some s' ->
  main s' = Returned err /\
  writes (stream (transport s')) = writes (stream (transport s)).
Proof.
  intros Hm H. open_session s. cbn in Hm. subst mn. unfold_step. cbn in H.
  split_step H; cbn; auto.
Qed.

(** X12: once [Communicate] has returned, nothing the spawned goroutine
    still does changes the value it returned or adds a [stream.Send] to the
    stream's history. *)
Theorem nothing_written_after_return (tr : list label) (s s' : session)
  (err : option error) :
  main s = Returned err -> run tr s = Some s' ->
  main s' = Returned err /\
  writes (stream (transport s')) = writes (stream (transport s)).
Proof.
  revert s. induction tr as [|l tr IH]; intros s Hm H; cbn in H.
  - injection H as <-. auto.
  - destruct (step l s) as [s1|] eqn:E; [|discriminate H].
    destruct (step_after_return l s s1 err Hm E) as (Hm1 & Hw1).
    destruct (IH s1 Hm1 H) as (Hm' & Hw'). split; congruence.
Qed.

(** X1: in every state [Communicate] reaches, the reply channel has the
    capacity [replyBufferSize] it was made with and holds at most that many
    replies, and the replies accepted by [Send] but not yet written to the
    stream are at most one more than that (the one the loop has taken). *)
Theorem queue_within_capacity (tr : list label) (s : session) :
  run tr Communicate_start = Some s ->
  Chan.cap (replies (transport s)) = replyBufferSize /\
  List.length (Chan.buf (replies (transport s))) <= replyBufferSize /\
  List.length (accepted s) <=
    List.length (written (stream (transport s))) + S replyBufferSize.
Proof.
  intros H. pose proof (run_inv tr _ s inv_start H) as Hs.
  destruct (inv_chan_ok Hs) as [Hcap Hlen].
  pose proof (inv_hist_ok Hs) as Hh. unfold inv_hist, history in Hh.
  split; [exact Hcap|]. split; [exact Hlen|].
  destruct (main s) as [|r1|[e|]|[e|]|[e|]]; break_hyps;
    match goal with Ha : accepted s = _ |- _ => rewrite Ha end;
    rewrite ?length_app; cbn [List.length]; lia.
Qed.

(** X2: in every state [Communicate] reaches, the transport's [closed] flag
    is set exactly when [c.Close] has been called, the reply channel is
    closed exactly when the trailer is set, and both follow the first
    [c.Close] alone: if its payload could be encoded, the trailer is the one
    pair [disconnect] with that encoding and the channel is closed; if not,
    there is no trailer and the channel is open. *)
Theorem trailer_follows_first_Close (tr : list label) (s : session) :
  run tr Communicate_start = Some s ->
  let t := transport s in
  (closed t = true <-> close_calls s <> []) /\
  (Chan.closed (replies t) = true <-> trailer (stream t) <> []) /\
  (forall d rest, close_calls s = d :: rest ->
     match json_Marshal d with
     | inl j =>
         trailer (stream t) = [("disconnect"%string, j)] /\
         Chan.closed (replies t) = true
     | inr _ =>
         trailer (stream t) = [] /\ Chan.closed (replies t) = false
     end).
Proof.
  intros H t. subst t. pose proof (run_inv tr _ s inv_start H) as Hs.
  pose proof (inv_term_ok Hs) as Ht. unfold inv_term in Ht. cbn zeta in Ht.
  destruct (close_calls s) as [|d0 calls].
  - destruct Ht as (Hc & Hq & Htr). rewrite Hc, Hq, Htr.
    split; [split; [discriminate | congruence]|].
    split; [split; [discriminate | congruence]|].
    intros d rest [=].
  - destruct Ht as (Hc & Ht). rewrite Hc.
    split; [split; [discriminate | reflexivity]|].
    split.
    + destruct (json_Marshal d0); destruct Ht as (Hq & Htr);
        rewrite Hq, Htr; split; (discriminate || congruence || reflexivity).
    + intros d rest [= <- <-].
      destruct (json_Marshal d0); destruct Ht as (Hq & Htr); auto.
Qed.

(** X3: the only panic a session can meet is the send on the closed channel,
    and only once a [stream.Send] has failed and the deferred [c.Close] of
    [Communicate] has run: in every state [Communicate] reaches, a panic
    carries that message, the spawned goroutine was still in its loop, and
    [Communicate], a write of its loop having failed with an error, had made
    its deferred [c.Close] and was about to return that error or had
    returned it.  In particular [close(t.replies)] never runs twice, and a
    session in which every write succeeds never panics. *)
Theorem panic_only_after_write_error (tr : list label) (s : session) :
  run tr Communicate_start = Some s ->
  (forall msg, panicked s = Some msg ->
     msg = "send on closed channel"%string /\
     inbound s = Running /\
     exists e r, (main s = Leaving (Some e) \/ main s = Returned (Some e)) /\
                 In (r, Some e) (writes (stream (transport s)))) /\
  ((forall r e, ~ In (r, Some e) (writes (stream (transport s)))) ->
   panicked s = None).
Proof.
  intros H. pose proof (run_inv tr _ s inv_start H) as Hs.
  assert (Hall : forall msg, panicked s = Some msg ->
     msg = "send on closed channel"%string /\
     inbound s = Running /\
     exists e r, (main s = Leaving (Some e) \/ main s = Returned (Some e)) /\
                 In (r, Some e) (writes (stream (transport s)))).
  { intros msg Hm.
    split; [exact (run_panic_message tr _ s inv_start eq_refl H msg Hm)|].
    destruct (inv_live_ok Hs) as [_ Hp].
    destruct (Hp msg Hm) as (Hi & e & He). split; [exact Hi|].
    pose proof (inv_hist_ok Hs) as Hh. unfold inv_hist, history in Hh.
    assert (Hw : exists r, writes (stream (transport s)) =
                   ok_writes (written (stream (transport s))) ++
                   [(r, Some e)]).
    { destruct He as [He | He]; rewrite He in Hh;
        destruct Hh as (r & Hw & _); now exists r. }
    destruct Hw as (r & Hw).
    exists e, r. split; [exact He|]. rewrite Hw.
    apply in_or_app. right. now left. }
  split; [exact Hall|].
  intros Hok. destruct (panicked s) as [msg|] eqn:Hm; [|reflexivity].
  destruct (Hall msg eq_refl) as (_ & _ & e & r & _ & Hin).
  destruct (Hok r e Hin).
Qed.

(** X4: once the reply channel is closed, no schedule gets another reply
    accepted: from a state with the channel closed, every run leaves the
    accepted replies as they were and the channel closed, and the queue only
    loses replies from its head. *)
Theorem no_reply_accepted_after_queue_closed (tr : list label)
  (s s' : session) :
  Chan.closed (replies (transport s)) = true ->
  run tr s = Some s' ->
  accepted s' = accepted s /\
  Chan.closed (replies (transport s')) = true /\
  exists taken, Chan.buf (replies (transport s)) =
                taken ++ Chan.buf (replies (transport s')).
Proof.
  intros Hc H.
  destruct (run_closed_freezes tr s s' Hc H) as (Ha & Htaken).
  destruct (run_grows tr s s' H) as (_ & Hq & _).
  split; [exact Ha|]. split; [exact (Hq Hc) | exact Htaken].
Qed.

(** X5: a session never goes back: along every run the [closed] flag, once
    set, stays set, the reply channel, once closed, stays closed, and the
    [c.Close] calls, the stream's [Send] history, the accepted replies and
    the trailer are only ever extended at their end. *)
Theorem session_history_only_grows (tr : list label) (s s' : session) :
  run tr s = Some s' ->
  (closed (transport s) = true -> closed (transport s') = true) /\
  (Chan.closed (replies (transport s)) = true ->
   Chan.closed (replies (transport s')) = true) /\
  (exists more, close_calls s' = close_calls s ++ more) /\
  (exists ws, writes (stream (transport s')) =
              writes (stream (transport s)) ++ ws) /\
  (exists rs, accepted s' = accepted s ++ rs) /\
  (exists md, trailer (stream (transport s')) =
              trailer (stream (transport s)) ++ md).
Proof.
  exact (run_grows tr s s').
Qed.

(** ** The loop of [Communicate] on a failing write *)

Lemma drain_until_failure (pre : list Reply) :
  forall cl ws tr cp cc x post calls acc ib e,
    run (repeat (Outbound None) (List.length pre) ++ [Outbound (Some e)])
        (mkSession
           (mkTransport cl (mkStream ws tr) (Chan.mk cp (pre ++ x :: post) cc))
           calls acc ib Looping None) =
      Some (mkSession
              (mkTransport cl
                 (mkStream (ws ++ ok_writes pre ++ [(x, Some e)]) tr)
                 (Chan.mk cp post cc))
              calls acc ib (Returning (Some e)) None).
Proof.
  induction pre as [|p pre IH]; intros cl ws tr cp cc x post calls acc ib e.
  - reflexivity.
  - cbn [List.length repeat app run]. unfold step at 1.
    unfold outbound_iter, loop_receive, loop_write, Chan.recv, stream_Send,
      set_transport, set_main.
    cbn -[run repeat app].
    rewrite IH. unfold ok_writes. cbn. now rewrite <- app_assoc.
Qed.

(** X7: the loop of [Communicate] writes the queued replies from the head of
    the queue and stops at the first write that fails.  With the queue
    holding [pre ++ x :: post], the writes of [pre] succeeding and the write
    of [x] failing with [e], the loop leaves with [e] to return, exactly
    [pre] added to the written replies, [x] taken from the queue without
    being written, and [post] still queued; and whatever happens afterwards,
    no further reply is written. *)
Theorem outbound_stops_at_first_failed_write (s : session)
  (pre : list Reply) (x : Reply) (post : list Reply) (e : error) :
  panicked s = None -> main s = Looping ->
  Chan.buf (replies (transport s)) = pre ++ x :: post ->
  exists s',
    run (repeat (Outbound None) (List.length pre) ++ [Outbound (Some e)]) s =
      Some s' /\
    main s' = Returning (Some e) /\
    written (stream (transport s')) = written (stream (transport s)) ++ pre /\
    Chan.buf (replies (transport s')) = post /\
    accepted s' = accepted s /\ close_calls s' = close_calls s /\
    forall (tr : list label) (s'' : session),
      run tr s' = Some s'' ->
      written (stream (transport s'')) =
        written (stream (transport s)) ++ pre.
Proof.
  intros Hp Hm Hb. open_session s. cbn in Hp, Hm, Hb. subst pn mn bf.
  eexists. split; [apply drain_until_failure|].
  assert (Hw : successes (ws ++ ok_writes pre ++ [(x, Some e)]) =
               successes ws ++ pre).
  { rewrite app_assoc, successes_snoc_err, successes_app.
    now rewrite successes_ok_writes. }
  cbn. unfold written. cbn. repeat (split; [solve [auto]|]).
  intros tr0 s'' Hrun.
  apply (run_loop_left tr0 _ s'' (Some e)) in Hrun;
    [|unfold left_loop; cbn; auto].
  destruct Hrun as (_ & Hrun). cbn in Hrun. now rewrite Hrun.
Qed.

(** ** [Send] up to the capacity *)

(** X8: successive [Send] calls on an open transport fill the queue up to
    its capacity and no further.  With [room] free places, the first [room]
    replies are accepted, appended to the queue in the order sent, and their
    calls return nil; every later call returns the overflow error and
    queues nothing. *)
Theorem Send_all_fills_to_capacity (rs : list PreparedReply) :
  forall t : grpcTransport,
  Chan.closed (replies t) = false ->
  List.length (Chan.buf (replies t)) <= Chan.cap (replies t) ->
  let room := Chan.cap (replies t) - List.length (Chan.buf (replies t)) in
  Send_all t rs =
    Ret (mkTransport (closed t) (stream t)
           (Chan.mk (Chan.cap (replies t))
              (Chan.buf (replies t) ++ map (@pr_Reply Reply) (firstn room rs))
              false),
         repeat None (Nat.min room (List.length rs)) ++
         repeat (Some overflow_error) (List.length rs - room)).
Proof.
  induction rs as [|r rs IH]; intros [cl st [cp bf cc]] Hopen Hlen room;
    cbn in Hopen, Hlen; subst cc; subst room; cbn [closed stream replies
      Chan.cap Chan.buf].
  - rewrite firstn_nil, Nat.min_0_r. cbn. now rewrite app_nil_r.
  - cbn [Send_all]. unfold grpcTransport_Send, Chan.select_send.
    cbn [closed stream replies Chan.cap Chan.buf Chan.closed].
    destruct (List.length bf <? cp) eqn:E.
    + apply Nat.ltb_lt in E. cbn [bind fst snd].
      rewrite IH; cbn [closed stream replies Chan.cap Chan.buf Chan.closed];
        rewrite ?length_app; cbn [List.length]; [|reflexivity|lia].
      replace (cp - List.length bf) with (S (cp - (List.length bf + 1)))
        by lia.
      cbn [firstn map List.length Nat.min Nat.sub repeat app bind fst snd].
      now rewrite <- app_assoc.
    + apply Nat.ltb_ge in E. cbn [bind fst snd].
      rewrite IH; cbn [closed stream replies Chan.cap Chan.buf Chan.closed];
        [|reflexivity|lia].
      replace (cp - List.length bf) with 0 by lia.
      cbn. rewrite Nat.sub_0_r. reflexivity.
Qed.

(** ** How a session ends *)

(** X9: when [c.Handle] returns a disconnect, the iteration sends nothing,
    even if it returned a reply as well: the goroutine is left about to run
    [c.Close(disconnect); return] with the session otherwise as it was.  That
    call is enabled and ends the loop: the close is recorded with the
    engine's disconnect, the queue and the accepted replies are untouched,
    and if it is the first close of the session and the disconnect can be
    encoded, the trailer carries it and the queue is closed. *)
Theorem inbound_engine_disconnect (tr : list label) (s s1 : session)
  (cmd : Command) (rep : option Reply) (d : Disconnect) :
  run tr Communicate_start = Some s ->
  step (Inbound (Recv cmd) (rep, Some d)) s = Some s1 ->
  s1 = set_inbound s (Closing (Some d)) /\
  exists s2,
    step InboundExit s1 = Some s2 /\
    inbound s2 = Exited /\
    close_calls s2 = close_calls s ++ [Some d] /\
    accepted s2 = accepted s /\
    Chan.buf (replies (transport s2)) = Chan.buf (replies (transport s)) /\
    main s2 = main s /\ panicked s2 = None /\
    (close_calls s = [] -> forall j, json_Marshal (Some d) = inl j ->
       trailer (stream (transport s2)) = [("disconnect"%string, j)] /\
       Chan.closed (replies (transport s2)) = true).
Proof.
  intros H Hstep.
  pose proof (run_inv tr _ s inv_start H) as Hs.
  unfold step in Hstep.
  destruct (panicked s) eqn:Hp; [discriminate Hstep|].
  destruct (inbound s) eqn:Hi; try discriminate Hstep.
  cbn in Hstep. injection Hstep as <-. split; [reflexivity|].
  assert (Ht : inv_term (set_inbound s (Closing (Some d))))
    by exact (inv_term_ok Hs).
  destruct (client_Close_effect (set_inbound s (Closing (Some d))) (Some d) Ht)
    as (Hc & Ha & _ & Hm & Hp' & _ & Hb & _ & Hfirst & _).
  exists (inbound_exit (Some d) (set_inbound s (Closing (Some d)))).
  split; [unfold step; cbn; now rewrite Hp|].
  unfold inbound_exit. cbn.
  repeat (split; [solve [auto] | ]).
  split; [now rewrite Hp'|].
  intros Hnil j Hj. exact (Hfirst Hnil j Hj).
Qed.



(** ** A whole session *)

Lemma run_answered (crs : list (Command * Reply)) :
  forall cl st cp bf calls acc mn,
    List.length bf + List.length crs <= cp ->
    run (answered crs)
        (mkSession (mkTransport cl st (Chan.mk cp bf false))
                   calls acc Running mn None) =
      Some (mkSession
              (mkTransport cl st (Chan.mk cp (bf ++ map snd crs) false))
              calls (acc ++ map snd crs) Running mn None).
Proof.
  induction crs as [|[cmd rep] crs IH]; intros cl st cp bf calls acc mn Hlen.
  - cbn. now rewrite !app_nil_r.
  - cbn [answered map fst snd run]. cbn [List.length] in Hlen.
    unfold step at 1. cbn [panicked inbound].
    unfold inbound_iter, grpcTransport_Send, Chan.select_send,
      NewPreparedReply, accept, set_transport.
    cbn [transport replies Chan.closed Chan.buf Chan.cap pr_Reply closed
         stream close_calls accepted inbound main panicked].
    assert (E : (List.length bf <? cp) = true) by (apply Nat.ltb_lt; lia).
    rewrite E. fold (answered crs).
    rewrite IH by (rewrite length_app; cbn [List.length]; lia).
    now rewrite <- !app_assoc.
Qed.

Lemma step_read_error (err : error) (h : Handle_result) (t : grpcTransport)
  (calls : list DisconnectPtr) (acc : list Reply) (mn : main_state) :
  step (Inbound (RecvError err) h) (mkSession t calls acc Running mn None) =
    Some (mkSession t calls acc (Closing DisconnectNormal) mn None).
Proof.
  unfold step, inbound_iter, set_inbound. cbn.
  now destruct (String.eqb err io_EOF).
Qed.

Lemma step_exit_first_Close (d : DisconnectPtr) (j : string)
  (ws : list (Reply * option error)) (tr : MD) (cp : nat) (bf acc : list Reply)
  (mn : main_state) :
  json_Marshal d = inl j ->
  step InboundExit
       (mkSession (mkTransport false (mkStream ws tr) (Chan.mk cp bf false))
                  [] acc (Closing d) mn None) =
    Some (mkSession
            (mkTransport true
               (mkStream ws (tr ++ [("disconnect"%string, j)]))
               (Chan.mk cp bf true))
            [d] acc Exited mn None).
Proof.
  intros Hj. unfold_step. cbn. rewrite Hj. reflexivity.
Qed.

Lemma step_deferred_after_Close (st : Stream) (ch : Chan.chan Reply)
  (calls : list DisconnectPtr) (acc : list Reply) (ib : goroutine)
  (err : option error) :
  step Deferred
       (mkSession (mkTransport true st ch) calls acc ib (Returning err) None) =
    Some (mkSession (mkTransport true st ch) (calls ++ [DisconnectNormal])
                    acc ib (Returned err) None).
Proof. reflexivity. Qed.

(** X13: a whole session, goroutine first.  For any commands, at most
    [replyBufferSize] of them, each answered by the engine with a reply, then
    a read error ([io.EOF] or another): when the spawned goroutine runs to
    its end before the loop of [Communicate] starts writing and the network
    takes every write, [Communicate] returns nil having written exactly
    those replies, in order; the trailer is the encoding of the normal
    disconnect, [c.Close] was called twice and nothing panicked. *)
Theorem session_delivers_every_reply (crs : list (Command * Reply))
  (err : error) (h : Handle_result) (j : string) :
  List.length crs <= replyBufferSize ->
  json_Marshal DisconnectNormal = inl j ->
  exists s,
    run (answered crs ++
         [Inbound (RecvError err) h; InboundExit] ++
         repeat (Outbound None) (S (List.length crs)) ++ [Deferred])
        Communicate_start = Some s /\
    returned s = Some None /\
    written (stream (transport s)) = map snd crs /\
    accepted s = map snd crs /\
    trailer (stream (transport s)) = [("disconnect"%string, j)] /\
    close_calls s = [DisconnectNormal; DisconnectNormal] /\
    inbound s = Exited /\ panicked s = None.
Proof.
  intros Hlen Hj. eexists. split.
  - rewrite run_app. unfold Communicate_start, newGRPCTransport, Chan.make,
      fresh_stream.
    cbn zeta. rewrite run_answered by (cbn [List.length]; lia).
    cbn [app run]. rewrite step_read_error.
    rewrite (step_exit_first_Close _ j) by exact Hj.
    rewrite run_app.
    rewrite <- (length_map snd crs) at 1. rewrite drain.
    cbn [run]. rewrite step_deferred_after_Close. reflexivity.
  - unfold returned, written. cbn.
    rewrite successes_ok_writes. repeat split.
Qed.

End Properties.

(** ** The claims at concrete inputs *)

Lemma Send_never_blocks_witness :
  (Chan.closed (replies fresh_transport) = false /\
   Chan.cap (replies fresh_transport) = replyBufferSize /\
   List.length (Chan.buf (replies fresh_transport)) < replyBufferSize) /\
  grpcTransport_Send fresh_transport (NewPreparedReply 7 EncodingProtobuf) =
    Ret (mkTransport false fresh_stream (Chan.mk replyBufferSize [7] false),
         None) /\
  List.length (Chan.buf (replies (transport queue_full))) = replyBufferSize /\
  grpcTransport_Send (transport queue_full)
    (NewPreparedReply 7 EncodingProtobuf) =
    Ret (transport queue_full, Some overflow_error).
Proof.
  assert (Hlt : 0 < replyBufferSize) by (unfold replyBufferSize; lia).
  split; [repeat split; exact Hlt|]. split; [|split].
  - exact (proj1 (Send_never_blocks fresh_transport
                    (NewPreparedReply 7 EncodingProtobuf) eq_refl eq_refl) Hlt).
  - reflexivity.
  - exact (proj1 (proj2 (Send_never_blocks (transport queue_full)
                           (NewPreparedReply 7 EncodingProtobuf)
                           eq_refl eq_refl)) eq_refl).
Defined.

Lemma Close_idempotent_witness :
  (closed fresh_transport = false /\
   Chan.closed (replies fresh_transport) = false /\
   marshal_ok sample_normal = inl (sample_json sample_normal)) /\
  exists t1,
    grpcTransport_Close (env := ok_env) fresh_transport sample_normal =
      Ret (t1, None) /\
    grpcTransport_Close (env := ok_env) t1 shutdown_disconnect = Ret (t1, None) /\
    Close_all (env := ok_env) fresh_transport
      [sample_normal; shutdown_disconnect; bad_disconnect] =
      Ret (t1, [None; None; None]) /\
    trailer (stream t1) =
      [("disconnect"%string, sample_json sample_normal)] /\
    Chan.closed (replies t1) = true.
Proof.
  split; [repeat split|].
  destruct (Close_idempotent (env := ok_env) fresh_transport sample_normal
              (sample_json sample_normal)
              [shutdown_disconnect; bad_disconnect]
              eq_refl eq_refl eq_refl) as (H1 & H2 & H3).
  eexists. split; [exact H1|]. split; [exact (H2 shutdown_disconnect)|].
  split; [exact H3|]. split; reflexivity.
Defined.

(** C4 as stated fails: of two [Close] calls whose first payload cannot be
    encoded, the first returns the encoding error and the second nil, so
    they neither all succeed nor all return that error; no trailer is
    attached and the queue is not closed. *)
Lemma Close_twice_encoding_failure :
  exists t',
    Close_all (env := partial_env) fresh_transport [bad_disconnect; sample_normal] =
      Ret (t', [Some "json: unsupported value"%string; None]) /\
    trailer (stream t') = [] /\
    Chan.closed (replies t') = false.
Proof.
  eexists. split; [reflexivity|]. split; reflexivity.
Qed.

Lemma Close_many_witness :
  (closed fresh_transport = false /\
   Chan.closed (replies fresh_transport) = false) /\
  exists t',
    Close_all (env := partial_env) fresh_transport
      [shutdown_disconnect; bad_disconnect; sample_normal] =
      Ret (t', [None; None; None]) /\
    trailer (stream t') =
      [("disconnect"%string, sample_json shutdown_disconnect)] /\
    Chan.closed (replies t') = true.
Proof.
  split; [split; reflexivity|].
  destruct (Close_many (env := partial_env) fresh_transport shutdown_disconnect
              [bad_disconnect; sample_normal] eq_refl eq_refl)
    as (t' & r & H1 & _ & _ & Hr & Ht & Hc & _).
  exists t'. rewrite Hr in H1. split; [exact H1|]. split; [exact Ht|exact Hc].
Defined.

Lemma Close_marshal_failure_wedges_witness :
  (closed fresh_transport = false /\
   Chan.closed (replies fresh_transport) = false /\
   marshal_partial bad_disconnect = inr "json: unsupported value"%string) /\
  let t1 := mkTransport true (@fresh_stream nat) (Chan.make replyBufferSize) in
  grpcTransport_Close (env := partial_env) fresh_transport bad_disconnect =
    Ret (t1, Some "json: unsupported value"%string) /\
  Close_all (env := partial_env) t1 [sample_normal; shutdown_disconnect] =
    Ret (t1, [None; None]) /\
  forall w : option error,
    step (Command := nat) (env := partial_env) (Outbound w)
      (mkSession t1 [bad_disconnect] [] Exited Looping None) = None.
Proof.
  split; [repeat split|].
  destruct (Close_marshal_failure_wedges (Command := nat)
              (env := partial_env)
              fresh_transport bad_disconnect "json: unsupported value"%string
              eq_refl eq_refl eq_refl) as (H1 & H2 & H3).
  split; [exact H1|]. split; [exact (H2 [sample_normal; shutdown_disconnect])|].
  intros w.
  destruct (H3 (mkSession (mkTransport true fresh_stream
                             (Chan.make replyBufferSize))
                          [bad_disconnect] [] Exited Looping None)
               [] _ eq_refl eq_refl eq_refl)
    as (_ & _ & _ & _ & _ & Hb & _).
  exact (Hb eq_refl w).
Defined.

(** ** Two states between the steps of [Communicate] *)

(** A reply is in flight: the loop has taken the first reply and not yet
    written it, and the reading loop has filled the queue again, so 65
    replies are accepted, none is written and 64 are queued. *)
Lemma reply_in_flight_reachable :
  run (env := ok_env)
    (Inbound (Recv 0) (Some 0, None) :: Receive ::
     repeat (Inbound (Recv 0) (Some 0, None)) replyBufferSize)
    Communicate_start = Some reply_in_flight /\
  main reply_in_flight = Writing 0 /\
  List.length (accepted reply_in_flight) = 65 /\
  written (stream (transport reply_in_flight)) = [] /\
  List.length (Chan.buf (replies (transport reply_in_flight))) = 64.
Proof.
  split; [vm_compute; reflexivity|]. repeat split.
Qed.

(** The deferred [c.Close] has closed the queue after a failed write while
    the reading loop is still running and [Communicate] has not returned. *)
Lemma closed_before_return_reachable :
  run (env := ok_env)
    [Inbound (Recv 1) (Some 10, None); Receive; Write (Some broken_pipe);
     DeferredClose]
    Communicate_start = Some closed_before_return /\
  Chan.closed (replies (transport closed_before_return)) = true /\
  inbound closed_before_return = Running /\
  main closed_before_return = Leaving (Some broken_pipe) /\
  returned closed_before_return = None.
Proof.
  split; [vm_compute; reflexivity|]. repeat split.
Qed.

(** C1 as stated fails: [Send] accepted the replies 10 and 20 before the
    queue was closed, the first write failed, and [Communicate] returned
    that error with neither reply written. *)
Lemma accepted_replies_dropped_on_write_error :
  exists s,
    run (env := ok_env)
      (two_replies_then_EOF ++ [Outbound (Some broken_pipe); Deferred])
      Communicate_start = Some s /\
    accepted s = [10; 20] /\
    written (stream (transport s)) = [] /\
    returned s = Some (Some broken_pipe).
Proof.
  eexists. split; [vm_compute; reflexivity|]. repeat split.
Qed.

Lemma outbound_fifo_witness :
  run (env := ok_env) two_replies_then_EOF Communicate_start =
    Some closed_with_two /\
  accepted closed_with_two = [10; 20] /\
  exists s',
    run (Command := nat) (env := ok_env)
      [Outbound None; Outbound None; Outbound None] closed_with_two =
      Some s' /\
    main s' = Returning None /\
    written (stream (transport s')) = [10; 20].
Proof.
  split; [reflexivity|]. split; [reflexivity|].
  destruct (outbound_fifo (env := ok_env) two_replies_then_EOF
              closed_with_two eq_refl) as (_ & _ & Hdrain & _).
  destruct (Hdrain (or_introl eq_refl) eq_refl) as (s' & Hrun & Hm & Hw & _).
  exists s'. split; [exact Hrun|]. split; [exact Hm|exact Hw].
Defined.

(** C5 as stated fails: after end of stream the reading loop calls
    [c.Close], and when [Communicate] returns the deferred call does so
    again: two invocations in one session. *)
Lemma Close_invoked_twice_on_EOF :
  exists s,
    run (Command := nat) (Reply := nat) (env := ok_env)
      [Inbound (RecvError io_EOF) (None, None); InboundExit;
       Outbound None; Deferred]
      Communicate_start = Some s /\
    returned s = Some None /\
    close_calls s = [sample_normal; sample_normal].
Proof.
  eexists. split; [vm_compute; reflexivity|]. split; reflexivity.
Qed.

Lemma client_Close_invocations_witness :
  run (env := ok_env) two_replies_then_EOF Communicate_start =
    Some closed_with_two /\
  List.length (close_calls closed_with_two) = 1 /\
  List.length (trailer (stream (transport closed_with_two))) <= 1.
Proof.
  split; [reflexivity|].
  destruct (client_Close_invocations (env := ok_env)
              two_replies_then_EOF closed_with_two eq_refl)
    as (Hn & _ & _ & _ & Ht).
  split; [exact Hn|exact Ht].
Defined.

(** C6 as stated fails: the engine issues a disconnect, which is no write
    failure, but its payload cannot be encoded; the reading goroutine calls
    [c.Close] and exits, the queue stays open and empty, and [Communicate],
    blocked in its loop with no step left to any goroutine, never returns
    nil. *)
Lemma Communicate_blocked_after_engine_disconnect :
  exists s,
    run (Command := nat) (Reply := nat) (env := partial_env)
      [Inbound (Recv 1) (None, bad_disconnect); InboundExit]
      Communicate_start = Some s /\
    inbound s = Exited /\ close_calls s = [bad_disconnect] /\
    writes (stream (transport s)) = [] /\
    main s = Looping /\ returned s = None /\
    forall l, step (Command := nat) (env := partial_env) l s = None.
Proof.
  eexists. split; [vm_compute; reflexivity|].
  repeat (split; [reflexivity|]).
  intros []; reflexivity.
Qed.

Lemma Communicate_return_value_witness :
  run (env := ok_env)
    [Inbound (Recv 1) (Some 10, None);
     Inbound (RecvError io_EOF) (None, None)]
    Communicate_start = Some reading_ended /\
  inbound reading_ended = Closing sample_normal /\
  main reading_ended = Looping /\
  exists s',
    run (Command := nat) (env := ok_env)
      [InboundExit; Outbound None; Outbound None; DeferredClose; Return]
      reading_ended = Some s' /\
    returned s' = Some None /\
    written (stream (transport s')) = [10] /\
    close_calls s' = [sample_normal; sample_normal].
Proof.
  split; [reflexivity|]. split; [reflexivity|]. split; [reflexivity|].
  destruct (Communicate_return_value (env := ok_env)
              [Inbound (Recv 1) (Some 10, None);
               Inbound (RecvError io_EOF) (None, None)]
              reading_ended eq_refl) as (_ & _ & _ & _ & Hlink & _).
  destruct (Hlink sample_normal (sample_json sample_normal)
              eq_refl eq_refl (or_introl eq_refl))
    as (s' & Hrun & Hret & Hw & _ & Hc).
  exists s'. split; [exact Hrun|]. split; [exact Hret|].
  split; [exact Hw | exact Hc].
Defined.

Lemma inbound_overflow_disconnect_witness :
  run (env := ok_env)
    (repeat (Inbound (Recv 0) (Some 0, None)) replyBufferSize)
    Communicate_start = Some queue_full /\
  grpcTransport_Send (transport queue_full)
    (NewPreparedReply 7 EncodingProtobuf) =
    Ret (transport queue_full, Some overflow_error) /\
  exists s2,
    run (env := ok_env) [Inbound (Recv 9) (Some 7, None); InboundExit]
      queue_full = Some s2 /\
    inbound s2 = Exited /\
    close_calls s2 =
      [Some {| Reason := "error sending message"; Reconnect := true |}] /\
    accepted s2 = accepted queue_full /\
    trailer (stream (transport s2)) =
      [("disconnect"%string,
        sample_json
          (Some {| Reason := "error sending message"; Reconnect := true |}))].
Proof.
  split; [vm_compute; reflexivity|]. split; [reflexivity|].
  destruct (inbound_overflow_disconnect (env := ok_env)
              (repeat (Inbound (Recv 0) (Some 0, None)) replyBufferSize)
              queue_full _ 9 7 (transport queue_full) overflow_error
              eq_refl eq_refl eq_refl)
    as (_ & _ & _ & _ & s2 & Hstep & Hi & Hc & Ha & _ & _ & Hfirst).
  exists s2. split.
  - cbn [run]. unfold step at 1. cbn [panicked queue_full inbound].
    rewrite Hstep. reflexivity.
  - split; [exact Hi|]. split; [exact Hc|]. split; [exact Ha|].
    exact (proj1 (Hfirst eq_refl _ eq_refl)).
Defined.

Lemma inbound_read_error_normal_disconnect_witness :
  run (Command := nat) (Reply := nat) (env := ok_env) []
    Communicate_start = Some Communicate_start /\
  exists s2,
    run (Command := nat) (Reply := nat) (env := ok_env)
      [Inbound (RecvError io_EOF) (None, None); InboundExit]
      Communicate_start = Some s2 /\
    inbound s2 = Exited /\
    close_calls s2 = [sample_normal] /\
    main s2 = Looping /\
    trailer (stream (transport s2)) =
      [("disconnect"%string, sample_json sample_normal)] /\
    Chan.closed (replies (transport s2)) = true.
Proof.
  split; [reflexivity|].
  destruct (inbound_read_error_normal_disconnect (Command := nat)
              (Reply := nat) (env := ok_env) [] Communicate_start _
              io_EOF (None, None) eq_refl eq_refl)
    as (_ & s2 & Hstep & Hi & Hc & _ & Hm & _ & _ & Hfirst).
  exists s2. split.
  - cbn [run]. unfold step at 1. cbn [panicked Communicate_start inbound].
    rewrite Hstep. reflexivity.
  - split; [exact Hi|]. split; [exact Hc|]. split; [exact Hm|].
    exact (Hfirst eq_refl _ eq_refl).
Defined.

(** C9, where the code departs from it: [Send] on the transport that
    [Close] has closed does not return an error, it panics; and
    [Communicate] reaches that: a write fails, the deferred [c.Close] closes
    the queue, and the reading loop, still running, sends its next reply. *)
Theorem Send_after_Close_panics :
  (exists t1,
     grpcTransport_Close (env := ok_env) fresh_transport sample_normal =
       Ret (t1, None) /\
     Chan.closed (replies t1) = true /\
     grpcTransport_Send t1 (NewPreparedReply 7 EncodingProtobuf) =
       Panic "send on closed channel") /\
  (exists s,
     run (env := ok_env)
       [Inbound (Recv 1) (Some 10, None);
        Outbound (Some broken_pipe);
        Deferred;
        Inbound (Recv 2) (Some 20, None)]
       Communicate_start = Some s /\
     panicked s = Some "send on closed channel"%string /\
     accepted s = [10]).
Proof.
  split.
  - eexists. split; [reflexivity|]. split; reflexivity.
  - eexists. split; [vm_compute; reflexivity|]. split; reflexivity.
Qed.

(** ** The further properties at concrete inputs *)

Lemma queue_within_capacity_witness :
  run (env := ok_env)
    (repeat (Inbound (Recv 0) (Some 0, None)) replyBufferSize)
    Communicate_start = Some queue_full /\
  List.length (Chan.buf (replies (transport queue_full))) <= replyBufferSize /\
  List.length (accepted queue_full) <=
    List.length (written (stream (transport queue_full))) + S replyBufferSize.
Proof.
  split; [vm_compute; reflexivity|].
  exact (proj2 (queue_within_capacity (env := ok_env)
                  (repeat (Inbound (Recv 0) (Some 0, None)) replyBufferSize)
                  queue_full eq_refl)).
Defined.

Lemma trailer_follows_first_Close_witness :
  run (env := ok_env) two_replies_then_EOF Communicate_start =
    Some closed_with_two /\
  close_calls closed_with_two = [sample_normal] /\
  trailer (stream (transport closed_with_two)) =
    [("disconnect"%string, sample_json sample_normal)] /\
  Chan.closed (replies (transport closed_with_two)) = true.
Proof.
  split; [reflexivity|]. split; [reflexivity|].
  exact (proj2 (proj2 (trailer_follows_first_Close (env := ok_env)
                         two_replies_then_EOF closed_with_two eq_refl))
               sample_normal [] eq_refl).
Defined.

Lemma panic_only_after_write_error_witness :
  run (env := ok_env)
    [Inbound (Recv 1) (Some 10, None); Receive; Write (Some broken_pipe);
     DeferredClose; Inbound (Recv 2) (Some 20, None)]
    Communicate_start = Some panicked_before_return /\
  panicked panicked_before_return =
    Some "send on closed channel"%string /\
  returned panicked_before_return = None /\
  inbound panicked_before_return = Running /\
  exists e r,
    (main panicked_before_return = Leaving (Some e) \/
     main panicked_before_return = Returned (Some e)) /\
    In (r, Some e) (writes (stream (transport panicked_before_return))).
Proof.
  split; [reflexivity|]. split; [reflexivity|]. split; [reflexivity|].
  exact (proj2 (proj1 (panic_only_after_write_error (env := ok_env)
                         [Inbound (Recv 1) (Some 10, None); Receive;
                          Write (Some broken_pipe); DeferredClose;
                          Inbound (Recv 2) (Some 20, None)]
                         panicked_before_return eq_refl)
                      "send on closed channel"%string eq_refl)).
Defined.

Lemma no_reply_accepted_after_queue_closed_witness :
  Chan.closed (replies (transport closed_with_two)) = true /\
  exists s',
    run (Command := nat) (env := ok_env) [Outbound None] closed_with_two =
      Some s' /\
    accepted s' = [10; 20] /\
    Chan.closed (replies (transport s')) = true /\
    Chan.buf (replies (transport s')) = [20].
Proof.
  split; [reflexivity|]. eexists. split; [reflexivity|].
  destruct (no_reply_accepted_after_queue_closed (Command := nat)
              (env := ok_env) [Outbound None] closed_with_two _
              eq_refl eq_refl) as (Ha & Hc & _).
  split; [exact Ha|]. split; [exact Hc | reflexivity].
Defined.

Lemma session_history_only_grows_witness :
  run (env := ok_env) two_replies_then_EOF Communicate_start =
    Some closed_with_two /\
  (exists more, close_calls closed_with_two =
                close_calls (@Communicate_start nat) ++ more) /\
  (exists rs, accepted closed_with_two =
              accepted (@Communicate_start nat) ++ rs).
Proof.
  split; [reflexivity|].
  destruct (session_history_only_grows (env := ok_env) two_replies_then_EOF
              Communicate_start closed_with_two eq_refl)
    as (_ & _ & Hm & _ & Ha & _).
  split; [exact Hm | exact Ha].
Defined.

Lemma stream_written_by_main_loop_only_witness :
  exists s',
    step (env := ok_env) (Inbound (Recv 3) (Some 30, None)) write_failed =
      Some s' /\
    writes (stream (transport s')) = writes (stream (transport write_failed)) /\
    main s' = main write_failed /\
    accepted s' = [10; 30].
Proof.
  eexists. split; [reflexivity|].
  destruct (stream_written_by_main_loop_only (env := ok_env)
              (Inbound (Recv 3) (Some 30, None)) write_failed _ eq_refl)
    as (Hw & Hm & _).
  split; [exact (proj1 (Hw eq_refl))|]. split; [exact (Hm eq_refl)|].
  reflexivity.
Defined.

Lemma outbound_stops_at_first_failed_write_witness :
  (panicked closed_with_two = None /\ main closed_with_two = Looping /\
   Chan.buf (replies (transport closed_with_two)) = [10] ++ 20 :: []) /\
  exists s',
    run (Command := nat) (env := ok_env)
      [Outbound None; Outbound (Some broken_pipe)] closed_with_two =
      Some s' /\
    main s' = Returning (Some broken_pipe) /\
    written (stream (transport s')) = [10] /\
    Chan.buf (replies (transport s')) = [].
Proof.
  split; [repeat split|].
  destruct (outbound_stops_at_first_failed_write (Command := nat)
              (env := ok_env) closed_with_two [10] 20 [] broken_pipe
              eq_refl eq_refl eq_refl)
    as (s' & Hrun & Hm & Hw & Hb & _).
  exists s'. split; [exact Hrun|]. split; [exact Hm|].
  split; [exact Hw | exact Hb].
Defined.

Lemma Send_all_fills_to_capacity_witness :
  (Chan.closed (replies fresh_transport) = false /\
   List.length (Chan.buf (replies fresh_transport)) <=
     Chan.cap (replies fresh_transport)) /\
  Send_all fresh_transport sixty_six_replies =
    Ret (mkTransport false fresh_stream
           (Chan.mk replyBufferSize (seq 0 64) false),
         repeat None 64 ++ repeat (Some overflow_error) 2).
Proof.
  split; [split; [reflexivity | apply Nat.le_0_l]|].
  exact (Send_all_fills_to_capacity sixty_six_replies fresh_transport
           eq_refl (Nat.le_0_l _)).
Defined.

Lemma inbound_engine_disconnect_witness :
  run (Command := nat) (Reply := nat) (env := ok_env) []
    Communicate_start = Some Communicate_start /\
  exists s1 s2,
    step (env := ok_env) (Inbound (Recv 1) (Some 10, shutdown_disconnect))
      Communicate_start = Some s1 /\
    step (Command := nat) (env := ok_env) InboundExit s1 = Some s2 /\
    inbound s2 = Exited /\
    close_calls s2 = [shutdown_disconnect] /\
    accepted s2 = [] /\
    Chan.buf (replies (transport s2)) = [] /\
    trailer (stream (transport s2)) =
      [("disconnect"%string, sample_json shutdown_disconnect)].
Proof.
  split; [reflexivity|].
  destruct (inbound_engine_disconnect (env := ok_env) [] Communicate_start _
              1 (Some 10) {| Reason := "shutdown"; Reconnect := false |}
              eq_refl eq_refl)
    as (_ & s2 & Hstep & Hi & Hc & Ha & Hb & _ & _ & Hfirst).
  eexists. exists s2. split; [reflexivity|]. split; [exact Hstep|].
  split; [exact Hi|]. split; [exact Hc|]. split; [exact Ha|].
  split; [exact Hb|]. exact (proj1 (Hfirst eq_refl _ eq_refl)).
Defined.



Lemma nothing_written_after_return_witness :
  main returned_write_error = Returned (Some broken_pipe) /\
  exists s',
    run (Command := nat) (env := ok_env)
      [Inbound (RecvError io_EOF) (None, None); InboundExit]
      returned_write_error = Some s' /\
    main s' = Returned (Some broken_pipe) /\
    writes (stream (transport s')) = [(10, Some broken_pipe)].
Proof.
  split; [reflexivity|]. eexists. split; [reflexivity|].
  exact (nothing_written_after_return (Command := nat) (env := ok_env)
           [Inbound (RecvError io_EOF) (None, None); InboundExit]
           returned_write_error _ (Some broken_pipe) eq_refl eq_refl).
Defined.

Lemma session_delivers_every_reply_witness :
  (List.length [(1, 10); (2, 20)] <= replyBufferSize /\
   marshal_ok sample_normal = inl (sample_json sample_normal)) /\
  exists s,
    run (env := ok_env)
      (answered [(1, 10); (2, 20)] ++
       [Inbound (RecvError io_EOF) (None, None); InboundExit] ++
       repeat (Outbound None) 3 ++ [Deferred])
      Communicate_start = Some s /\
    returned s = Some None /\
    written (stream (transport s)) = [10; 20] /\
    close_calls s = [sample_normal; sample_normal].
Proof.
  assert (Hlen : List.length [(1, 10); (2, 20)] <= replyBufferSize)
    by (unfold replyBufferSize; cbn; lia).
  split; [split; [exact Hlen | reflexivity]|].
  destruct (session_delivers_every_reply (env := ok_env) [(1, 10); (2, 20)]
              io_EOF (None, None) (sample_json sample_normal) Hlen eq_refl)
    as (s & Hrun & Hret & Hw & _ & _ & Hc & _).
  exists s. split; [exact Hrun|]. split; [exact Hret|].
  split; [exact Hw | exact Hc].
Defined.
